(** * Raysect workflow engines: [SerialEngine] and [MulticoreEngine]

    A shallow embedding of [raysect/core/workflow/serial.py] and
    [raysect/core/workflow/multicore.py].

    - Python values that reach the configuration setters are modelled by
      [Py.value]; a raised exception by the left injection of [Py.result].
    - [MulticoreEngine._producer] and [SerialEngine.run] are functions.
    - [MulticoreEngine.run] starts a producer process and [_processes]
      worker processes that talk through two FIFO queues.  It is modelled as
      an interleaving semantics: a deterministic [step] per process and a
      schedule (a list of process names) that picks who moves next.  Every
      statement about [run] is quantified over all schedules. *)

From Stdlib Require Import ZArith QArith String.
From stdpp Require Import base tactics option list.

Local Open Scope Z_scope.

(** ** Python values and exceptions *)

Module Py.

(** The values a caller passes for [processes] and [tasks_per_job]:
    [None], an [int] (unbounded) or a [float].  A finite float is given by
    the rational number it denotes (comparison with an [int] and [int()]
    are exact on it); the other floats are the two infinities and nan. *)
Inductive value : Type :=
| None_
| Int (z : Z)
| Float (q : Q)
| Inf (negative : bool)
| NaN.

Inductive exn : Type :=
| ValueError (msg : string)
| TypeError
| OverflowError (msg : string).

(** The messages of [int()] on a float that is not finite. *)
Definition int_nan_msg : string := "cannot convert float NaN to integer".
Definition int_inf_msg : string := "cannot convert float infinity to integer".

(** [inl e]: the exception [e] was raised; [inr a]: normal completion. *)
Definition result (A : Type) : Type := (exn + A)%type.

Definition ret {A} (a : A) : result A := inr a.
Definition raise {A} (e : exn) : result A := inl e.
Definition bind {A B} (m : result A) (k : A -> result B) : result B :=
  match m with
  | inl e => inl e
  | inr a => k a
  end.

(** Truth value of an object: [None], [0] and [0.0] are false. *)
Definition truthy (v : value) : bool :=
  match v with
  | None_ => false
  | Int z => negb (z =? 0)
  | Float q => negb (Qnum q =? 0)
  | Inf _ | NaN => true
  end.

(** [a or b] *)
Definition or_ (a b : value) : value := if truthy a then a else b.

(** [v < n] for an integer literal [n]; [None < n] raises [TypeError],
    minus infinity is below every integer, and every comparison with nan
    is false. *)
Definition lt_int (v : value) (n : Z) : result bool :=
  match v with
  | None_ => raise TypeError
  | Int z => ret (z <? n)
  | Float q => ret (match (q ?= inject_Z n)%Q with Lt => true | _ => false end)
  | Inf negative => ret negative
  | NaN => ret false
  end.

(** [int(v)]: truncation towards zero on a finite float; an infinity
    raises [OverflowError] and nan raises [ValueError]. *)
Definition int (v : value) : result Z :=
  match v with
  | None_ => raise TypeError
  | Int z => ret z
  | Float q => ret (Z.quot (Qnum q) (Zpos (Qden q)))
  | Inf _ => raise (OverflowError int_inf_msg)
  | NaN => raise (ValueError int_nan_msg)
  end.

(** [range(v)] needs an [int]; its length is [max 0 v]. *)
Definition range_len (v : value) : result nat :=
  match v with
  | Int z => ret (Z.to_nat z)
  | _ => raise TypeError
  end.

(** The number an [int] or a finite [float] denotes. *)
Definition number (v : value) : option Q :=
  match v with
  | Int z => Some (inject_Z z)
  | Float q => Some q
  | None_ | Inf _ | NaN => None
  end.

Definition is_int (v : value) : Prop := exists z, v = Int z.

End Py.

Notation "'let*' x ':=' m 'in' k" := (Py.bind m (fun x => k))
  (at level 10, x name, m at level 100, k at level 200).

(** ** Engine configuration ([multicore.py], lines 73-100) *)

Record MulticoreEngine : Type := mkEngine {
  _processes : Z;
  _tasks_per_job : Py.value
}.

Definition processes_msg : string :=
  "Number of concurrent worker processes must be greater than zero.".
Definition tasks_per_job_msg : string :=
  "The number of tasks per job must be greater than zero.".

Section Configuration.

(** What [multiprocessing.cpu_count()] returns on the machine. *)
Variable cpu_count : Z.

(** The value the [processes] setter stores in [_processes]. *)
Definition processes_value (value : Py.value) : Py.result Z :=
  match value with
  | Py.None_ => Py.ret cpu_count
  | _ =>
      let* v := Py.int value in
      if v <=? 0 then Py.raise (Py.ValueError processes_msg)
      else Py.ret v
  end.

(** The value the [tasks_per_job] setter stores in [_tasks_per_job]. *)
Definition tasks_per_job_value (value : Py.value) : Py.result Py.value :=
  let* b := Py.lt_int value 1 in
  if b then Py.raise (Py.ValueError tasks_per_job_msg)
  else Py.ret value.

(** [self.processes = value] *)
Definition set_processes (self : MulticoreEngine) (value : Py.value)
  : Py.result MulticoreEngine :=
  let* p := processes_value value in
  Py.ret (mkEngine p (_tasks_per_job self)).

(** [self.tasks_per_job = value] *)
Definition set_tasks_per_job (self : MulticoreEngine) (value : Py.value)
  : Py.result MulticoreEngine :=
  let* k := tasks_per_job_value value in
  Py.ret (mkEngine (_processes self) k).

(** [MulticoreEngine(processes, tasks_per_job)]: both attributes are set
    through their setters, [processes] first; the second one receives
    [tasks_per_job or 1]. *)
Definition __init__ (processes tasks_per_job : Py.value)
  : Py.result MulticoreEngine :=
  let* p := processes_value processes in
  let* k := tasks_per_job_value (Py.or_ tasks_per_job (Py.Int 1)) in
  Py.ret (mkEngine p k).

Definition worker_count (self : MulticoreEngine) : Z := _processes self.

End Configuration.

(** A configuration as the data model describes it: a positive number of
    processes and a positive integer number of tasks per job. *)
Definition configured (self : MulticoreEngine) (K : Z) : Prop :=
  0 < _processes self /\ _tasks_per_job self = Py.Int K /\ 1 <= K.

(** ** Tasks, jobs and the two callbacks *)

Section Workflow.

(** Tasks, results and the caller's state that [update] mutates. *)
Context {T R A : Type}.

(** [render(task, *render_args, **render_kwargs)] and
    [update(result, *update_args, **update_kwargs)] with their fixed extra
    arguments applied; [render] is deterministic. *)
Variable render : T -> R.
Variable update : R -> A -> A.

Definition job : Type := list T.

(** The processes of a run: the caller of [run], the producer and the
    workers, numbered in the order they are started. *)
Inductive actor : Type :=
| Main
| Producer
| Worker (w : nat).

(** What the processes do that the callers can observe, in the order it
    happens. *)
Inductive event : Type :=
| EvJob (j : job)                      (* producer: job_queue.put(job) *)
| EvGet (w : nat) (m : option job)     (* worker w: job_queue.get() gave m *)
| EvRender (by_ : actor) (t : T)       (* render(task, ...), and who ran it *)
| EvPut (w : nat) (rs : list R)        (* worker w: result_queue.put(results) *)
| EvUpdate (r : R)                     (* main: update(result, ...) *)
| EvSentinel.                          (* main: job_queue.put(None) *)

Definition rendered (tr : list event) : list T :=
  omap (fun e => match e with EvRender _ t => Some t | _ => None end) tr.
Definition updated (tr : list event) : list R :=
  omap (fun e => match e with EvUpdate r => Some r | _ => None end) tr.
Definition sentinels (tr : list event) : nat :=
  length (omap (fun e => match e with EvSentinel => Some e | _ => None end) tr).
(** Jobs (not sentinels) that worker [w] received, and batches it sent. *)
Definition got (w : nat) (tr : list event) : list job :=
  omap (fun e => match e with
                 | EvGet w' (Some j) => if decide (w' = w) then Some j else None
                 | _ => None end) tr.
Definition put (w : nat) (tr : list event) : list (list R) :=
  omap (fun e => match e with
                 | EvPut w' rs => if decide (w' = w) then Some rs else None
                 | _ => None end) tr.

(** ** [SerialEngine.run] ([serial.py], lines 46-50) *)

(** The loop body run for one task, on the caller's state and the trace. *)
Definition serial_body (st : A * list event) (task : T) : A * list event :=
  let result := render task in
  (update result (fst st), snd st ++ [EvRender Main task; EvUpdate result]).

Definition SerialEngine_run (tasks : list T) (a : A) : A * list event :=
  fold_left serial_body tasks (a, []).

(** The events of a serial run, task by task. *)
Definition serial_events (tasks : list T) : list event :=
  tasks ≫= (fun task => [EvRender Main task; EvUpdate (render task)]).

(** ** [MulticoreEngine._producer] ([multicore.py], lines 134-144) *)

(** [tasks.pop()]: removes and returns the last item. *)
Definition pop (tasks : list T) : option (T * list T) :=
  match reverse tasks with
  | [] => None
  | t :: rest => Some (t, reverse rest)
  end.

(** The inner [for _ in range(k)] loop: pops while there are tasks. *)
Fixpoint fill_job (k : nat) (tasks : list T) (job0 : job) : list T * job :=
  match k with
  | O => (tasks, job0)
  | S k' =>
      match pop tasks with
      | Some (t, tasks') => fill_job k' tasks' (job0 ++ [t])
      | None => (tasks, job0)
      end
  end.

(** The [while tasks:] loop; the result is the list of jobs put on the
    queue, in order.  [None]: the fuel ran out before the loop ended. *)
Fixpoint producer_loop (fuel k : nat) (tasks : list T) : option (list job) :=
  match fuel with
  | O => None
  | S fuel' =>
      match tasks with
      | [] => Some []
      | _ :: _ =>
          let '(tasks', j) := fill_job k tasks [] in
          cons j <$> producer_loop fuel' k tasks'
      end
  end.

(** [range(self._tasks_per_job)] is evaluated in the first iteration, so an
    empty task list never reaches it. *)
Definition _producer (fuel : nat) (self : MulticoreEngine) (tasks : list T)
  : option (Py.result (list job)) :=
  match tasks with
  | [] => Some (Py.ret [])
  | _ :: _ =>
      match Py.range_len (_tasks_per_job self) with
      | inl e => Some (Py.raise e)
      | inr k => Py.ret <$> producer_loop fuel k tasks
      end
  end.

(** ** [MulticoreEngine.run] and [_worker] ([multicore.py], lines 102-163) *)

(** The producer process.  It works on its own copy of [tasks]: the parent
    process never sees the pops. *)
Inductive pstate : Type :=
| PNotStarted
| PRunning (tasks : list T)   (* at the [while tasks:] test *)
| PExited
| PCrashed (e : Py.exn).

(** A worker process.  Its first statement, [random.seed()], touches only
    the random generator of its own process and is left out. *)
Inductive wstate : Type :=
| WGet                                     (* at [job_queue.get()] *)
| WFor (todo : list T) (results : list R)  (* in [for task in job] *)
| WExited.

(** The process that called [run]. *)
Inductive mstate : Type :=
| MStart                                   (* before [producer.start()] *)
| MSpawn (n : nat)                         (* [n] workers still to start *)
| MWhile (remaining : Z)                   (* at the [while remaining:] test *)
| MFor (results : list R) (remaining : Z)  (* in [for result in results] *)
| MShutdown (n : nat)                      (* [n] sentinels still to put *)
| MReturned.

Record state : Type := mkState {
  producer : pstate;
  workers : list wstate;
  main : mstate;
  job_queue : list (option job);      (* [None] is the sentinel *)
  result_queue : list (list R);
  acc : A;                            (* the caller's state *)
  trace : list event
}.

Variable self : MulticoreEngine.
Variable tasks : list T.

Definition init (a : A) : state :=
  mkState PNotStarted [] MStart [] [] a [].

Definition main_step (s : state) : option state :=
  match main s with
  | MStart =>
      Some (mkState (PRunning tasks) (workers s)
              (MSpawn (Z.to_nat (_processes self)))
              (job_queue s) (result_queue s) (acc s) (trace s))
  | MSpawn (S n) =>
      Some (mkState (producer s) (workers s ++ [WGet]) (MSpawn n)
              (job_queue s) (result_queue s) (acc s) (trace s))
  | MSpawn O =>
      Some (mkState (producer s) (workers s)
              (MWhile (Z.of_nat (length tasks)))
              (job_queue s) (result_queue s) (acc s) (trace s))
  | MWhile remaining =>
      if remaining =? 0 then
        Some (mkState (producer s) (workers s)
                (MShutdown (length (workers s)))
                (job_queue s) (result_queue s) (acc s) (trace s))
      else
        match result_queue s with
        | [] => None
        | results :: q =>
            Some (mkState (producer s) (workers s) (MFor results remaining)
                    (job_queue s) q (acc s) (trace s))
        end
  | MFor (result :: results) remaining =>
      Some (mkState (producer s) (workers s) (MFor results (remaining - 1))
              (job_queue s) (result_queue s) (update result (acc s))
              (trace s ++ [EvUpdate result]))
  | MFor [] remaining =>
      Some (mkState (producer s) (workers s) (MWhile remaining)
              (job_queue s) (result_queue s) (acc s) (trace s))
  | MShutdown (S n) =>
      Some (mkState (producer s) (workers s) (MShutdown n)
              (job_queue s ++ [None]) (result_queue s) (acc s)
              (trace s ++ [EvSentinel]))
  | MShutdown O =>
      Some (mkState (producer s) (workers s) MReturned
              (job_queue s) (result_queue s) (acc s) (trace s))
  | MReturned => None
  end.

(** One iteration of the producer's [while] loop. *)
Definition producer_step (s : state) : option state :=
  match producer s with
  | PRunning [] =>
      Some (mkState PExited (workers s) (main s)
              (job_queue s) (result_queue s) (acc s) (trace s))
  | PRunning ts =>
      match Py.range_len (_tasks_per_job self) with
      | inl e =>
          Some (mkState (PCrashed e) (workers s) (main s)
                  (job_queue s) (result_queue s) (acc s) (trace s))
      | inr k =>
          let '(ts', j) := fill_job k ts [] in
          Some (mkState (PRunning ts') (workers s) (main s)
                  (job_queue s ++ [Some j]) (result_queue s) (acc s)
                  (trace s ++ [EvJob j]))
      end
  | _ => None
  end.

Definition worker_step (w : nat) (s : state) : option state :=
  match workers s !! w with
  | Some WGet =>
      match job_queue s with
      | [] => None
      | Some j :: q =>
          Some (mkState (producer s) (<[w := WFor j []]> (workers s)) (main s)
                  q (result_queue s) (acc s)
                  (trace s ++ [EvGet w (Some j)]))
      | None :: q =>
          Some (mkState (producer s) (<[w := WExited]> (workers s)) (main s)
                  q (result_queue s) (acc s)
                  (trace s ++ [EvGet w None]))
      end
  | Some (WFor (task :: todo) results) =>
      Some (mkState (producer s)
              (<[w := WFor todo (results ++ [render task])]> (workers s))
              (main s) (job_queue s) (result_queue s) (acc s)
              (trace s ++ [EvRender (Worker w) task]))
  | Some (WFor [] results) =>
      Some (mkState (producer s) (<[w := WGet]> (workers s)) (main s)
              (job_queue s) (result_queue s ++ [results]) (acc s)
              (trace s ++ [EvPut w results]))
  | Some WExited => None
  | None => None
  end.

(** The move of the chosen process; [None] when it is blocked, not
    started or finished. *)
Definition step (a : actor) (s : state) : option state :=
  match a with
  | Main => main_step s
  | Producer => producer_step s
  | Worker w => worker_step w s
  end.

(** Running a schedule; [None] when it names a process that cannot move. *)
Fixpoint exec (sched : list actor) (s : state) : option state :=
  match sched with
  | [] => Some s
  | a :: sched' =>
      match step a s with
      | Some s' => exec sched' s'
      | None => None
      end
  end.

(** [run] returns on every schedule: whoever moves, the main process
    reaches its end after finitely many steps, and before that some process
    can always move. *)
Inductive returns : state -> Prop :=
| returns_now s : main s = MReturned -> returns s
| returns_later s :
    (exists a s', step a s = Some s') ->
    (forall a s', step a s = Some s' -> returns s') ->
    returns s.

(** ** Where the tasks and the results of a run are

    The bookkeeping used to reason about all schedules at once: every task
    is in exactly one place (the producer's list, a job on the queue, a
    worker's loop, or already rendered), and so is every result. *)

Definition ptasks (p : pstate) : list T :=
  match p with
  | PNotStarted => tasks
  | PRunning ts => ts
  | PExited | PCrashed _ => []
  end.
Definition msg_tasks (m : option job) : list T := default [] m.
Definition wtodo (w : wstate) : list T :=
  match w with WFor todo _ => todo | _ => [] end.
Definition wresults (w : wstate) : list R :=
  match w with WFor _ results => results | _ => [] end.
Definition mbatch (m : mstate) : list R :=
  match m with MFor results _ => results | _ => [] end.

Definition tasks_conserved (s : state) : Prop :=
  tasks ≡ₚ ptasks (producer s) ++ (job_queue s ≫= msg_tasks)
            ++ (workers s ≫= wtodo) ++ rendered (trace s).

Definition results_conserved (s : state) : Prop :=
  (render <$> rendered (trace s))
  ≡ₚ (workers s ≫= wresults) ++ concat (result_queue s)
      ++ mbatch (main s) ++ updated (trace s).

(** The number of worker processes [run] starts. *)
Definition nprocs : nat := Z.to_nat (_processes self).

(** No sentinel was put, none is on the queue, no worker has ended. *)
Definition quiet (s : state) : Prop :=
  sentinels (trace s) = 0%nat
  /\ (None ∉ job_queue s)
  /\ (WExited ∉ workers s).

(** [remaining] counts the results not yet given to [update]. *)
Definition countdown (s : state) (remaining : Z) : Prop :=
  remaining
  = Z.of_nat (length tasks) - Z.of_nat (length (updated (trace s))).

Definition all_updated (s : state) : Prop :=
  length (updated (trace s)) = length tasks.

Definition control (s : state) : Prop :=
  (forall e, producer s <> PCrashed e)
  /\ match main s with
     | MStart =>
         producer s = PNotStarted /\ workers s = [] /\ quiet s
         /\ updated (trace s) = []
     | MSpawn n =>
         producer s <> PNotStarted
         /\ (length (workers s) + n)%nat = nprocs /\ quiet s
         /\ updated (trace s) = []
     | MWhile remaining | MFor _ remaining =>
         producer s <> PNotStarted
         /\ length (workers s) = nprocs /\ quiet s
         /\ countdown s remaining
     | MShutdown n =>
         producer s <> PNotStarted
         /\ length (workers s) = nprocs /\ all_updated s
         /\ (sentinels (trace s) + n)%nat = nprocs
     | MReturned =>
         producer s <> PNotStarted
         /\ length (workers s) = nprocs /\ all_updated s
         /\ sentinels (trace s) = nprocs
     end.

(** The caller's state is what the calls of [update] so far made of it. *)
Definition acc_folded (a : A) (s : state) : Prop :=
  acc s = fold_left (fun a r => update r a) (updated (trace s)) a.

(** A worker has sent one batch per job it finished, the renders of the
    job's tasks in order, and nothing of the job it is working on. *)
Definition worker_ok (w : nat) (st : wstate) (tr : list event) : Prop :=
  match st with
  | WFor todo results =>
      exists done j,
        got w tr = done ++ [j]
        /\ put w tr = map (map render) done
        /\ results ++ map render todo = map render j
  | _ => put w tr = map (map render) (got w tr)
  end.

Definition workers_ok (s : state) : Prop :=
  forall w, worker_ok w (default WGet (workers s !! w)) (trace s).

Record inv (a : A) (s : state) : Prop := mkInv {
  inv_tasks : tasks_conserved s;
  inv_results : results_conserved s;
  inv_control : control s;
  inv_acc : acc_folded a s;
  inv_workers : workers_ok s
}.

(** ** A measure that every step decreases *)

Definition pweight (p : pstate) : nat :=
  match p with
  | PRunning ts => 1 + 20 * length ts
  | PNotStarted | PExited | PCrashed _ => 0
  end.
Definition jweight (m : option job) : nat :=
  match m with
  | Some j => 4 + 8 * length j
  | None => 1
  end.
Definition wweight (w : wstate) : nat :=
  match w with
  | WGet => 1
  | WFor todo results => 4 + 7 * length todo + 6 * length results
  | WExited => 0
  end.
Definition rweight (results : list R) : nat := 2 + 5 * length results.
Definition mweight (nw : nat) (m : mstate) : nat :=
  match m with
  | MStart => 6 + 2 * nw + 4 * nprocs + 20 * length tasks
  | MSpawn n => 4 + 2 * nw + 4 * n
  | MWhile _ => 2 + 2 * nw
  | MFor results _ => 3 + 2 * nw + 4 * length results
  | MShutdown n => 1 + 2 * n
  | MReturned => 0
  end.
Definition weight (s : state) : nat :=
  mweight (length (workers s)) (main s)
  + pweight (producer s)
  + sum_list_with jweight (job_queue s)
  + sum_list_with wweight (workers s)
  + sum_list_with rweight (result_queue s).

(** ** More views of a trace and of the queues *)

(** Jobs the producer has put, jobs the workers have taken (all workers,
    in the order taken), and sentinels taken. *)
Definition produced (tr : list event) : list job :=
  omap (fun e => match e with EvJob j => Some j | _ => None end) tr.
Definition received (tr : list event) : list job :=
  omap (fun e => match e with EvGet _ (Some j) => Some j | _ => None end) tr.
Definition exits (tr : list event) : nat :=
  length (omap (fun e => match e with EvGet _ None => Some e | _ => None end) tr).
(** Tasks rendered by worker [w], and batches put by all workers. *)
Definition rendered_by (w : nat) (tr : list event) : list T :=
  omap (fun e => match e with
                 | EvRender (Worker w') t =>
                     if decide (w' = w) then Some t else None
                 | _ => None end) tr.
Definition all_put (tr : list event) : list (list R) :=
  omap (fun e => match e with EvPut _ rs => Some rs | _ => None end) tr.

(** Jobs waiting on the job queue, and sentinels waiting on it. *)
Definition queued_jobs (q : list (option job)) : list job := omap id q.
Definition queued_sentinels (q : list (option job)) : nat :=
  length (omap (fun m => match m with None => Some m | Some _ => None end) q).

(** Workers that have left their loop. *)
Definition exited (ws : list wstate) : nat :=
  length (omap (fun w => match w with WExited => Some w | _ => None end) ws).

(** No process can move. *)
Definition quiescent (s : state) : Prop := forall a, step a s = None.

(** ** How the messages travel

    Statements kept by every step, used to follow jobs and results through
    the two queues. *)

(** The job queue is first in, first out, and hands each job to one
    worker: the jobs put are the jobs taken followed by the jobs waiting. *)
Definition fifo_jobs (s : state) : Prop :=
  produced (trace s) = received (trace s) ++ queued_jobs (job_queue s).

(** Each sentinel put is waiting on the queue or has ended one worker. *)
Definition sentinels_accounted (s : state) : Prop :=
  sentinels (trace s)
  = (queued_sentinels (job_queue s) + exits (trace s))%nat
  /\ exits (trace s) = exited (workers s).

(** A worker renders the tasks of its jobs in the order it got them. *)
Definition renders_in_order (s : state) : Prop :=
  forall w,
    rendered_by w (trace s) ++ wtodo (default WGet (workers s !! w))
    = concat (got w (trace s)).

(** The results reach [update] batch by batch in the order the batches were
    put on the result queue, each batch in its own order. *)
Definition results_in_order (s : state) : Prop :=
  updated (trace s) ++ mbatch (main s) ++ concat (result_queue s)
  = concat (all_put (trace s)).

(** While at most one worker has been started, it is worker 0 that takes
    every job and puts every batch. *)
Definition sole_worker (s : state) : Prop :=
  (length (workers s) <= 1)%nat ->
  received (trace s) = got 0 (trace s)
  /\ all_put (trace s) = put 0 (trace s).

(** The producer takes the tasks from the end of the list. *)
Definition producer_in_order (s : state) : Prop :=
  reverse tasks
  = concat (produced (trace s)) ++ reverse (ptasks (producer s)).

(** The jobs put so far, followed by what the producer's loop makes of the
    tasks it still holds, are what the loop makes of the whole list. *)
Definition producer_refines (s : state) : Prop :=
  forall k fuel js,
    Py.range_len (_tasks_per_job self) = inr k ->
    producer_loop fuel k (ptasks (producer s)) = Some js ->
    exists fuel',
      producer_loop fuel' k tasks = Some (produced (trace s) ++ js).

(** No empty job and no empty batch is on its way. *)
Definition nothing_empty (s : state) : Prop :=
  Forall (fun m => m <> Some []) (job_queue s)
  /\ Forall (fun w => w <> WFor [] []) (workers s)
  /\ Forall (fun results => results <> []) (result_queue s).

(** The state of a run whose producer cannot make a job: nothing has
    happened and the caller is at most waiting for its first batch. *)
Definition starved (s : state) : Prop :=
  trace s = [] /\ job_queue s = [] /\ result_queue s = []
  /\ Forall (fun w => w = WGet) (workers s)
  /\ match producer s with
     | PRunning ts => ts = tasks
     | PExited => False
     | PNotStarted | PCrashed _ => True
     end
  /\ match main s with
     | MStart | MSpawn _ => True
     | MWhile remaining => remaining = Z.of_nat (length tasks)
     | MFor _ _ | MShutdown _ | MReturned => False
     end.

End Workflow.

(** What the constructor and the setters establish and keep: a positive
    number of processes, and a number of tasks per job that passed the
    setter's test, that is, for which [value < 1] is false. *)
Definition well_formed (self : MulticoreEngine) : Prop :=
  0 < _processes self
  /\ Py.lt_int (_tasks_per_job self) 1 = inr false.

(** Rounding a quotient up, for a positive divisor. *)
Definition ceil_div (a b : Z) : Z := (a + b - 1) / b.

(** ** A concrete run

    Two workers, two tasks per job, five integer tasks, the identity as
    [render] and appending to a list as [update]; one schedule among the
    many the operating system may choose. *)

Module Demo.

Definition engine : MulticoreEngine := mkEngine 2 (Py.Int 2).
Definition tasks : list Z := [1; 2; 3; 4; 5].
Definition render (task : Z) : Z := task.
Definition update (result : Z) (out : list Z) : list Z := out ++ [result].

Definition schedule : list actor :=
  [Main; Producer; Producer; Producer; Main; Producer;
   Worker 0; Worker 0; Main; Main; Worker 0; Worker 1;
   Worker 1; Worker 1; Worker 0; Worker 1; Main; Main;
   Worker 0; Worker 0; Main; Main; Worker 0; Main; Main; Main; Main; Main;
   Main; Main; Main; Main; Main; Main; Worker 0; Worker 1].

(** The state [schedule] ends in. *)
Definition final : @state Z Z (list Z) :=
  Eval vm_compute in
    default (init []) (exec render update engine tasks schedule (init [])).

(** The state when [run] has just returned, two moves before the end of
    [schedule]: the workers have not taken their sentinels yet. *)
Definition returned : @state Z Z (list Z) :=
  Eval vm_compute in
    default (init [])
      (exec render update engine tasks (take 34 schedule) (init [])).

(** The same run with an [update] that adds up the results. *)
Definition total (result : Z) (sum : Z) : Z := result + sum.
Definition final_total : @state Z Z Z :=
  Eval vm_compute in
    default (init 0) (exec render total engine tasks schedule (init 0)).

(** A run with a single worker. *)
Definition engine1 : MulticoreEngine := mkEngine 1 (Py.Int 2).
Definition schedule1 : list actor :=
  [Main; Main; Producer; Worker 0; Main; Producer; Worker 0;
   Worker 0; Producer; Worker 0; Main; Producer; Worker 0; Main; Main;
   Worker 0; Main; Worker 0; Worker 0; Main; Main; Worker 0; Main; Main;
   Worker 0; Worker 0; Main; Main; Main; Main; Main; Main;
   Worker 0].
Definition final1 : @state Z Z (list Z) :=
  Eval vm_compute in
    default (init [])
      (exec render update engine1 tasks schedule1 (init [])).

(** A run whose number of tasks per job is 3/2. *)
Definition fraction_engine : MulticoreEngine := mkEngine 1 (Py.Float (3 # 2)).
Definition stuck : @state Z Z (list Z) :=
  Eval vm_compute in
    default (init [])
      (exec render update fraction_engine tasks
         [Main; Main; Main; Producer] (init [])).

End Demo.

(** * Properties *)

(** ** Configuration *)

Section ConfigurationFacts.

Variable cpu_count : Z.

Lemma processes_value_nonpos v q :
  Py.number v = Some q -> (q <= 0)%Q ->
  processes_value cpu_count v = inl (Py.ValueError processes_msg).
Proof.
  intros Hn Hq. destruct v as [|z|r|b|]; simpl in Hn; try discriminate.
  - injection Hn as <-. unfold Qle in Hq. simpl in Hq.
    cbn. destruct (Z.leb_spec z 0); [reflexivity | lia].
  - injection Hn as <-. unfold Qle in Hq. simpl in Hq. cbn.
    assert (Z.quot (Qnum r) (Z.pos (Qden r)) <= 0).
    { rewrite <- (Z.opp_involutive (Qnum r)). rewrite Z.quot_opp_l by lia.
      pose proof (Z.quot_pos (- Qnum r) (Z.pos (Qden r))). lia. }
    destruct (Z.leb_spec (Z.quot (Qnum r) (Z.pos (Qden r))) 0);
      [reflexivity | lia].
Qed.

Lemma lt_int_true v q n :
  Py.number v = Some q -> (q < inject_Z n)%Q -> Py.lt_int v n = inr true.
Proof.
  intros Hn Hq.
  destruct v as [|z|r|b|]; simpl in Hn; try discriminate; injection Hn as <-; cbn.
  - f_equal. unfold Qlt in Hq. simpl in Hq. apply Z.ltb_lt. lia.
  - f_equal. rewrite Qlt_alt in Hq. by rewrite Hq.
Qed.

Lemma lt_int_false v q n :
  Py.number v = Some q -> ~ (q < inject_Z n)%Q -> Py.lt_int v n = inr false.
Proof.
  intros Hn Hq.
  destruct v as [|z|r|b|]; simpl in Hn; try discriminate; injection Hn as <-; cbn.
  - f_equal. unfold Qlt in Hq. simpl in Hq. apply Z.ltb_ge. lia.
  - f_equal. rewrite Qlt_alt in Hq. by destruct (r ?= inject_Z n)%Q.
Qed.

Lemma truthy_nonzero v q :
  Py.number v = Some q -> ~ (q == 0)%Q -> Py.truthy v = true.
Proof.
  intros Hn Hq.
  destruct v as [|z|r|b|]; simpl in Hn; try discriminate; injection Hn as <-;
    unfold Qeq in Hq; simpl in Hq; cbn; apply negb_true_iff, Z.eqb_neq; lia.
Qed.

Lemma tasks_per_job_value_low v q :
  Py.number v = Some q -> (q < 1)%Q ->
  tasks_per_job_value v = inl (Py.ValueError tasks_per_job_msg).
Proof.
  intros Hn Hq. unfold tasks_per_job_value.
  by rewrite (lt_int_true v q 1 Hn Hq).
Qed.

Lemma tasks_per_job_value_ok v q :
  Py.number v = Some q -> ~ (q < 1)%Q -> tasks_per_job_value v = inr v.
Proof.
  intros Hn Hq. unfold tasks_per_job_value.
  by rewrite (lt_int_false v q 1 Hn Hq).
Qed.

(** The constructor and the setters, given integers, build a configuration
    on which [run] is well defined. *)
Lemma init_configured p k self :
  0 < cpu_count ->
  __init__ cpu_count p k = inr self ->
  k = Py.None_ \/ Py.is_int k ->
  exists K, configured self K.
Proof.
  intros Hcpu Hinit Hk. unfold __init__ in Hinit.
  destruct (processes_value cpu_count p) as [e|n] eqn:Hp; [discriminate|].
  assert (0 < n) as Hn.
  { destruct p as [|z|r|b|]; cbn in Hp.
    - by injection Hp as <-.
    - destruct (Z.leb_spec z 0); [discriminate|]. by injection Hp as <-.
    - destruct (Z.leb_spec (Z.quot (Qnum r) (Z.pos (Qden r))) 0);
        [discriminate|]. by injection Hp as <-.
    - discriminate.
    - discriminate. }
  cbn in Hinit.
  destruct Hk as [-> | [z ->]]; cbn in Hinit.
  - injection Hinit as <-. exists 1. by repeat split.
  - unfold Py.or_, Py.truthy in Hinit.
    destruct (Z.eqb_spec z 0) as [Hz|Hz]; cbn in Hinit.
    + injection Hinit as <-. exists 1. by repeat split.
    + destruct (Z.ltb_spec z 1); [discriminate|].
      injection Hinit as <-. exists z. by repeat split.
Qed.

(** C4: assigning 0 or a negative number to [processes], by the setter or
    at construction, raises the error about the number of processes at
    once; assigning [None] (the constructor's default) stores the detected
    core count, a positive integer. *)
Theorem C4_processes_validation (self : MulticoreEngine) (v : Py.value) (q : Q) :
  0 < cpu_count ->
  Py.number v = Some q -> (q <= 0)%Q ->
  set_processes cpu_count self v = inl (Py.ValueError processes_msg)
  /\ (forall k, __init__ cpu_count v k = inl (Py.ValueError processes_msg))
  /\ set_processes cpu_count self Py.None_
     = inr (mkEngine cpu_count (_tasks_per_job self))
  /\ __init__ cpu_count Py.None_ Py.None_ = inr (mkEngine cpu_count (Py.Int 1))
  /\ (forall self', set_processes cpu_count self Py.None_ = inr self' ->
                    worker_count self' = cpu_count /\ 0 < worker_count self').
Proof.
  intros Hcpu Hn Hq. pose proof (processes_value_nonpos v q Hn Hq) as Hv.
  repeat split.
  - unfold set_processes. by rewrite Hv.
  - intros k. unfold __init__. by rewrite Hv.
  - by injection H as <-.
  - by injection H as <-.
Qed.

(** What the test [value < 1] of the [tasks_per_job] setter does with an
    [int] or a finite [float]: below 1 it raises the error about the number
    of tasks per job, in the setter and (for a nonzero value) in the
    constructor; from 1 on the value is stored as it is, whole or not; an
    unset argument of the constructor ([None]) gives 1. *)
Lemma tasks_per_job_test
  (self : MulticoreEngine) (p : Py.value) (n : Z) (v : Py.value) (q : Q) :
  processes_value cpu_count p = inr n ->
  Py.number v = Some q ->
  ((q < 1)%Q ->
     set_tasks_per_job self v = inl (Py.ValueError tasks_per_job_msg)
     /\ (~ (q == 0)%Q ->
         __init__ cpu_count p v = inl (Py.ValueError tasks_per_job_msg)))
  /\ (~ (q < 1)%Q ->
        set_tasks_per_job self v = inr (mkEngine (_processes self) v)
        /\ __init__ cpu_count p v = inr (mkEngine n v))
  /\ __init__ cpu_count p Py.None_ = inr (mkEngine n (Py.Int 1)).
Proof.
  intros Hp Hn. split; [|split].
  - intros Hq. split.
    + unfold set_tasks_per_job. by rewrite (tasks_per_job_value_low v q).
    + intros Hz. unfold __init__, Py.or_. rewrite Hp. cbn.
      rewrite (truthy_nonzero v q Hn Hz).
      by rewrite (tasks_per_job_value_low v q).
  - intros Hq. split.
    + unfold set_tasks_per_job. by rewrite (tasks_per_job_value_ok v q).
    + assert (~ (q == 0)%Q) as Hz.
      { intros Hz. apply Hq. by rewrite Hz. }
      unfold __init__, Py.or_. rewrite Hp. cbn.
      rewrite (truthy_nonzero v q Hn Hz).
      by rewrite (tasks_per_job_value_ok v q).
  - unfold __init__. by rewrite Hp.
Qed.

(** C9: the constructor replaces a false [tasks_per_job] argument (0, 0.0,
    [None]) by 1 before the setter's check, so it does not raise and the
    engine has [tasks_per_job] 1; assigning 0 afterwards raises. *)
Theorem C9_constructor_zero_defaults
  (self : MulticoreEngine) (p : Py.value) (n : Z) (v : Py.value) :
  processes_value cpu_count p = inr n ->
  Py.truthy v = false ->
  __init__ cpu_count p v = inr (mkEngine n (Py.Int 1))
  /\ set_tasks_per_job self (Py.Int 0) = inl (Py.ValueError tasks_per_job_msg).
Proof.
  intros Hp Hv. split; [|reflexivity].
  unfold __init__, Py.or_. by rewrite Hp, Hv.
Qed.

End ConfigurationFacts.

Lemma C4_witness :
  set_processes 8 (mkEngine 4 (Py.Int 1)) (Py.Int (-2))
  = inl (Py.ValueError processes_msg)
  /\ set_processes 8 (mkEngine 4 (Py.Int 1)) (Py.Float (-1 # 2))
     = inl (Py.ValueError processes_msg).
Proof.
  split.
  - apply (C4_processes_validation 8 (mkEngine 4 (Py.Int 1)) (Py.Int (-2))
             (inject_Z (-2))); [lia | reflexivity | discriminate].
  - apply (C4_processes_validation 8 (mkEngine 4 (Py.Int 1))
             (Py.Float (-1 # 2)) (-1 # 2)); [lia | reflexivity | discriminate].
Defined.

Example tasks_per_job_test_negative :
  set_tasks_per_job (mkEngine 4 (Py.Int 1)) (Py.Int (-1))
  = inl (Py.ValueError tasks_per_job_msg)
  /\ __init__ 8 (Py.Int 4) (Py.Int (-1))
     = inl (Py.ValueError tasks_per_job_msg).
Proof.
  destruct (tasks_per_job_test 8 (mkEngine 4 (Py.Int 1)) (Py.Int 4) 4
              (Py.Int (-1)) (inject_Z (-1)) eq_refl eq_refl) as [Hlow _].
  destruct (Hlow eq_refl) as [Hset Hinit]. split; [exact Hset|].
  apply Hinit. discriminate.
Qed.

Example tasks_per_job_fraction_stored :
  set_tasks_per_job (mkEngine 4 (Py.Int 1)) (Py.Float (3 # 2))
  = inr (mkEngine 4 (Py.Float (3 # 2))).
Proof. reflexivity. Qed.

Example tasks_per_job_zero_at_construction :
  __init__ 8 Py.None_ (Py.Int 0) = inr (mkEngine 8 (Py.Int 1)).
Proof. reflexivity. Qed.

(** [None] is only a default for the constructor: the setter's comparison
    [None < 1] raises. *)
Example tasks_per_job_none_assigned :
  set_tasks_per_job (mkEngine 4 (Py.Int 1)) Py.None_ = inl Py.TypeError.
Proof. reflexivity. Qed.

Lemma C9_witness :
  __init__ 8 (Py.Int 3) (Py.Int 0) = inr (mkEngine 3 (Py.Int 1))
  /\ set_tasks_per_job (mkEngine 3 (Py.Int 1)) (Py.Int 0)
     = inl (Py.ValueError tasks_per_job_msg).
Proof.
  apply (C9_constructor_zero_defaults 8 (mkEngine 3 (Py.Int 1)) (Py.Int 3) 3
           (Py.Int 0)); reflexivity.
Defined.

(** ** The producer: job batching *)

Section ProducerFacts.

Context {T : Type}.
Implicit Types (tasks r : list T) (k : nat).

Lemma pop_reverse_cons t r : pop (reverse (t :: r)) = Some (t, reverse r).
Proof. unfold pop. by rewrite reverse_involutive. Qed.

Lemma pop_nil : pop (@nil T) = None.
Proof. reflexivity. Qed.

Lemma pop_snoc tasks t : pop (tasks ++ [t]) = Some (t, tasks).
Proof. unfold pop. by rewrite reverse_snoc, reverse_involutive. Qed.

(** The inner loop moves the last [k] tasks, last first, to the job. *)
Lemma fill_job_reverse k r j0 :
  fill_job k (reverse r) j0 = (reverse (drop k r), j0 ++ take k r).
Proof.
  revert r j0. induction k as [|k IH]; intros r j0; simpl.
  - by rewrite drop_0, take_0, app_nil_r.
  - destruct r as [|t r].
    + by rewrite app_nil_r.
    + rewrite pop_reverse_cons, IH. simpl. by rewrite <- app_assoc.
Qed.

Lemma producer_loop_reverse fuel k r :
  (1 <= k)%nat -> (length r < fuel)%nat ->
  exists jobs,
    producer_loop fuel k (reverse r) = Some jobs
    /\ concat jobs = r
    /\ forall i, jobs !! i =
         if decide (i * k < length r)%nat
         then Some (take k (drop (i * k) r)) else None.
Proof.
  intros Hk. revert r. induction fuel as [|fuel IH]; intros r Hfuel; [lia|].
  destruct r as [|t r].
  - exists []. by repeat split.
  - simpl. destruct (reverse (t :: r)) as [|x l] eqn:Hrev.
    { apply (f_equal length) in Hrev. rewrite length_reverse in Hrev. discriminate. }
    rewrite <- Hrev, fill_job_reverse. simpl in Hfuel.
    destruct (IH (drop k (t :: r))) as (jobs & -> & Hcat & Hix).
    { rewrite length_drop. simpl. lia. }
    exists (take k (t :: r) :: jobs). split; [done|]. split.
    + simpl. rewrite Hcat. apply take_drop.
    + intros [|i].
      * rewrite decide_True by (simpl; lia). done.
      * simpl. rewrite Hix, length_drop, drop_drop.
        cbn [length]. repeat case_decide; try lia; done.
Qed.

(** [c] is the rounded-up quotient when it is the number of multiples of
    [k] below [n]. *)
Lemma ceil_div_nat (n k c : nat) :
  (1 <= k)%nat -> (forall i, (i * k < n)%nat <-> (i < c)%nat) ->
  Z.of_nat c = ceil_div (Z.of_nat n) (Z.of_nat k).
Proof.
  intros Hk Hc. unfold ceil_div.
  apply Z.div_unique with (r := Z.of_nat n + Z.of_nat k - 1 - Z.of_nat k * Z.of_nat c); [|lia].
  left. 
  destruct c as [|c].
  - assert (n = 0)%nat. { destruct n; [done|]. pose proof (proj1 (Hc 0%nat)). lia. } lia.
  - pose proof (proj2 (Hc c)). pose proof (Hc (S c)) as [H1 _]. 
    assert (~ (S c * k < n)%nat) by (intros ?%H1; lia). nia.
Qed.

(** With a positive integer [tasks_per_job] the producer terminates, and
    its jobs are the consecutive blocks of the reversed task list. *)
Lemma producer_configured fuel self K tasks :
  _tasks_per_job self = Py.Int K -> 1 <= K -> (length tasks < fuel)%nat ->
  exists jobs,
    _producer fuel self tasks = Some (inr jobs)
    /\ concat jobs = reverse tasks
    /\ forall i, jobs !! i =
         if decide (i * Z.to_nat K < length tasks)%nat
         then Some (take (Z.to_nat K) (drop (i * Z.to_nat K) (reverse tasks)))
         else None.
Proof.
  intros Hself HK Hfuel.
  destruct (producer_loop_reverse fuel (Z.to_nat K) (reverse tasks))
    as (jobs & Hloop & Hcat & Hix); [lia | by rewrite length_reverse |].
  rewrite reverse_involutive in Hloop. rewrite length_reverse in Hix.
  exists jobs. split; [|done].
  unfold _producer. rewrite Hself. simpl. rewrite Hloop.
  destruct tasks; [|done].
  destruct fuel; [simpl in Hfuel; lia|]. simpl in Hloop. by injection Hloop as <-.
Qed.

(** C2: for a non-empty list of [T] tasks and [tasks_per_job = K >= 1],
    the producer ends (given enough fuel) having put [ceil (T / K)] jobs;
    every job but the last has exactly [K] tasks, and the last has
    [T mod K] tasks when that is not zero ([K] otherwise). *)
Theorem C2_job_batching
  (self : MulticoreEngine) (K : Z) (tasks : list T) (fuel : nat) :
  _tasks_per_job self = Py.Int K -> 1 <= K ->
  tasks <> [] -> (length tasks < fuel)%nat ->
  exists jobs,
    _producer fuel self tasks = Some (inr jobs)
    /\ Z.of_nat (length jobs) = ceil_div (Z.of_nat (length tasks)) K
    /\ (forall i j, (S i < length jobs)%nat -> jobs !! i = Some j ->
                    Z.of_nat (length j) = K)
    /\ (forall j, last jobs = Some j ->
                  Z.of_nat (length j) =
                  if Z.of_nat (length tasks) mod K =? 0 then K
                  else Z.of_nat (length tasks) mod K).
Proof.
  intros Hself HK Hne Hfuel.
  destruct (producer_configured fuel self K tasks Hself HK Hfuel)
    as (jobs & Hrun & _ & Hix).
  exists jobs. split; [done|].
  set (k := Z.to_nat K) in *. set (n := length tasks) in *.
  assert (forall i, (i * k < n)%nat <-> (i < length jobs)%nat) as Hlen.
  { intros i. rewrite <- lookup_lt_is_Some, Hix.
    case_decide; split; intros H'; try done; try lia. }
  assert (forall i j, jobs !! i = Some j ->
            (i * k < n)%nat /\ length j = Nat.min k (n - i * k)) as Hjob.
  { intros i j. rewrite Hix. case_decide; [|done]. intros [= <-].
    split; [done|]. by rewrite length_take, length_drop, length_reverse. }
  split; [|split].
  - rewrite (ceil_div_nat n k (length jobs)); [f_equal|..]; try done; lia.
  - intros i j Hi Hj. destruct (Hjob i j Hj) as [_ ->].
    apply Hlen in Hi. lia.
  - intros j. rewrite last_lookup. intros Hj.
    destruct (Hjob _ _ Hj) as [Hlt ->].
    assert (length jobs <> 0)%nat as Hc.
    { intros Hc. rewrite Hc in Hj. simpl in Hj.
      apply lookup_lt_Some in Hj. lia. }
    assert (~ (length jobs * k < n)%nat) as Hge by (rewrite Hlen; lia).
    set (c := length jobs) in *.
    assert (Z.of_nat n = K * Z.of_nat (pred c) + Z.of_nat (Nat.min k (n - pred c * k)))
      as Hdec by nia.
    destruct (decide (Nat.min k (n - pred c * k) = k)) as [Hm|Hm].
    + rewrite Hm in *. 
      replace (Z.of_nat n mod K) with 0; [simpl; lia|].
      apply Z.mod_unique with (q := Z.of_nat (pred c) + 1); lia.
    + replace (Z.of_nat n mod K) with (Z.of_nat (Nat.min k (n - pred c * k))).
      * destruct (Z.eqb_spec (Z.of_nat (Nat.min k (n - pred c * k))) 0); lia.
      * apply Z.mod_unique with (q := Z.of_nat (pred c)); lia.
Qed.

(** C10: the jobs the producer puts, concatenated in the order they are
    put, are the task list reversed: no task is lost or duplicated, job
    [i] is the [i]-th block of [K] tasks of the reversed list, and the
    first job holds the last [K] tasks submitted, last one first. *)
Theorem C10_jobs_reverse_tasks
  (self : MulticoreEngine) (K : Z) (tasks : list T) (fuel : nat) :
  _tasks_per_job self = Py.Int K -> 1 <= K -> (length tasks < fuel)%nat ->
  exists jobs,
    _producer fuel self tasks = Some (inr jobs)
    /\ concat jobs = reverse tasks
    /\ concat jobs ≡ₚ tasks
    /\ (forall i j, jobs !! i = Some j ->
           j = take (Z.to_nat K) (drop (i * Z.to_nat K) (reverse tasks)))
    /\ (tasks <> [] ->
        jobs !! 0%nat = Some (reverse (drop (length tasks - Z.to_nat K) tasks))).
Proof.
  intros Hself HK Hfuel.
  destruct (producer_configured fuel self K tasks Hself HK Hfuel)
    as (jobs & Hrun & Hcat & Hix).
  exists jobs. split; [done|]. split; [done|]. split.
  { rewrite Hcat. apply reverse_Permutation. }
  split.
  { intros i j. rewrite Hix. case_decide; [|done]. by intros [= <-]. }
  intros Hne. rewrite Hix. rewrite decide_True.
  - by rewrite drop_0, take_reverse.
  - destruct tasks; [done|]. simpl. lia.
Qed.
End ProducerFacts.

Lemma C2_witness :
  exists jobs,
    _producer 6 (mkEngine 2 (Py.Int 2)) [1; 2; 3; 4; 5] = Some (inr jobs)
    /\ Z.of_nat (length jobs) = 3.
Proof.
  destruct (C2_job_batching (mkEngine 2 (Py.Int 2)) 2 [1; 2; 3; 4; 5] 6)
    as (jobs & Hrun & Hlen & _);
    [reflexivity | lia | discriminate | simpl; lia |].
  exists jobs. split; [exact Hrun | exact Hlen].
Defined.

Lemma C10_witness :
  exists jobs,
    _producer 6 (mkEngine 2 (Py.Int 2)) [1; 2; 3; 4; 5] = Some (inr jobs)
    /\ concat jobs = [5; 4; 3; 2; 1].
Proof.
  destruct (C10_jobs_reverse_tasks (mkEngine 2 (Py.Int 2)) 2 [1; 2; 3; 4; 5] 6)
    as (jobs & Hrun & Hcat & _); [reflexivity | lia | simpl; lia |].
  exists jobs. split; [exact Hrun | exact Hcat].
Defined.

Example producer_five_by_two :
  _producer 6 (mkEngine 2 (Py.Int 2)) [1; 2; 3; 4; 5]
  = Some (inr [[5; 4]; [3; 2]; [1]]).
Proof. reflexivity. Qed.

(** A [tasks_per_job] that passed the setter without being an [int] stops
    the producer at [range]. *)
Example producer_float_crashes :
  _producer 6 (mkEngine 2 (Py.Float (3 # 2))) [1; 2; 3]
  = Some (inl Py.TypeError).
Proof. reflexivity. Qed.

(** ** The serial engine *)

Section SerialFacts.

Context {T R A : Type}.
Variable render : T -> R.
Variable update : R -> A -> A.

Lemma serial_fold tasks st :
  fold_left (serial_body render update) tasks st
  = (fold_left (fun a task => update (render task) a) tasks (fst st),
     snd st ++ serial_events render tasks).
Proof.
  revert st. induction tasks as [|task tasks IH]; intros st; simpl.
  - rewrite app_nil_r. by destruct st.
  - rewrite IH. simpl. by rewrite <- app_assoc.
Qed.

Lemma SerialEngine_run_eq tasks a :
  SerialEngine_run render update tasks a
  = (fold_left (fun a task => update (render task) a) tasks a,
     serial_events render tasks).
Proof. unfold SerialEngine_run. by rewrite serial_fold. Qed.

Lemma serial_rendered tasks : rendered (serial_events render tasks) = tasks.
Proof.
  induction tasks as [|task tasks IH]; [done|].
  unfold serial_events. rewrite bind_cons. simpl. f_equal. exact IH.
Qed.

Lemma serial_updated tasks : updated (serial_events render tasks) = render <$> tasks.
Proof.
  induction tasks as [|task tasks IH]; [done|].
  unfold serial_events. rewrite bind_cons. simpl. f_equal. exact IH.
Qed.

End SerialFacts.

(** C7: the serial engine takes the tasks in the order submitted; each
    result goes to [update] right after its [render] and before the next
    task is rendered.  With tasks 1..5, the identity as [render] and
    appending as [update], the output list is 1..5 in order. *)
Theorem C7_serial_in_order :
  (forall (T R A : Type) (render : T -> R) (update : R -> A -> A)
          (tasks : list T) (a : A),
      SerialEngine_run render update tasks a
      = (fold_left (fun a task => update (render task) a) tasks a,
         tasks ≫= (fun task => [EvRender Main task; EvUpdate (render task)]))
      /\ rendered (snd (SerialEngine_run render update tasks a)) = tasks
      /\ updated (snd (SerialEngine_run render update tasks a))
         = render <$> tasks)
  /\ SerialEngine_run (fun task : Z => task) (fun r out => out ++ [r])
       [1; 2; 3; 4; 5] []
     = ([1; 2; 3; 4; 5],
        [EvRender Main 1; EvUpdate 1; EvRender Main 2; EvUpdate 2;
         EvRender Main 3; EvUpdate 3; EvRender Main 4; EvUpdate 4;
         EvRender Main 5; EvUpdate 5]).
Proof.
  split; [|reflexivity].
  intros. rewrite SerialEngine_run_eq. simpl.
  by rewrite serial_rendered, serial_updated.
Qed.
(** ** The multicore engine: invariants of every schedule *)

Section RunFacts.

Context {T R A : Type}.
Variable render : T -> R.
Variable update : R -> A -> A.
Variable self : MulticoreEngine.
Variable tasks : list T.
Variable K : Z.
Hypothesis Hcfg : configured self K.
Variable a0 : A.

Local Abbreviation state := (@state T R A).
Local Abbreviation step := (step render update self tasks).
Local Abbreviation exec := (exec render update self tasks).
Local Abbreviation control := (@control T R A self tasks).

Lemma list_lookup_split {X} (l : list X) i x :
  l !! i = Some x ->
  exists l1 l2, l = l1 ++ x :: l2 /\ forall y, <[i:=y]> l = l1 ++ y :: l2.
Proof.
  intros Hi. exists (take i l), (drop (S i) l). split.
  - by rewrite take_drop_middle.
  - intros y. apply insert_take_drop. by eapply lookup_lt_Some.
Qed.

Lemma range_len_configured :
  Py.range_len (_tasks_per_job self) = inr (Z.to_nat K).
Proof. destruct Hcfg as (_ & -> & _). reflexivity. Qed.

Implicit Types (tr : list (@event T R)) (e : @event T R).

(** Projections of a trace that grows by one event. *)
Lemma rendered_snoc tr e : rendered (tr ++ [e]) = rendered tr ++ rendered [e].
Proof. apply omap_app. Qed.
Lemma updated_snoc tr e :
  updated (tr ++ [e]) = updated tr ++ updated [e].
Proof. apply omap_app. Qed.
Lemma got_snoc w tr e : got w (tr ++ [e]) = got w tr ++ got w [e].
Proof. apply omap_app. Qed.
Lemma put_snoc w tr e : put w (tr ++ [e]) = put w tr ++ put w [e].
Proof. apply omap_app. Qed.
Lemma sentinels_snoc tr e :
  sentinels (tr ++ [e]) = (sentinels tr + sentinels [e])%nat.
Proof. unfold sentinels. by rewrite omap_app, length_app. Qed.

Lemma not_elem_of_insert {X} (l : list X) i x y :
  x ∉ l -> x <> y -> x ∉ <[i:=y]> l.
Proof.
  intros Hl Hy Hin. apply list_elem_of_lookup in Hin as [j Hj].
  destruct (decide (i = j)) as [->|Hne].
  - destruct (decide (j < length l)%nat).
    + rewrite list_lookup_insert_eq in Hj by done. congruence.
    + rewrite list_insert_ge in Hj by lia. apply Hl. by eapply list_elem_of_lookup_2.
  - rewrite list_lookup_insert_ne in Hj by done. apply Hl. by eapply list_elem_of_lookup_2.
Qed.


Ltac control_close :=
  unfold quiet, countdown, all_updated, nprocs, sentinels in *; simpl in *;
  rewrite ?updated_snoc, ?omap_app, ?length_app, ?elem_of_app,
    ?list_elem_of_singleton, ?length_insert, ?not_elem_of_cons in *;
  simpl in *;
  destruct_and?; simplify_eq/=;
  try match goal with H : updated _ = [] |- _ => rewrite H end;
  repeat split; simpl; try done; try lia; try (intuition congruence);
  try (apply not_elem_of_insert; done).

Lemma control_step a s s' : control s -> step a s = Some s' -> control s'.
Proof.
  intros Hc H. destruct s as [p ws m jq rq ac tr].
  destruct Hc as [Hcrash Hc]. simpl in *.
  destruct a; simpl in H;
    unfold main_step, producer_step, worker_step in H; simpl in H.
  - repeat case_match; simplify_eq; split; simpl; try done; control_close.
  - rewrite range_len_configured in H.
    repeat case_match; simplify_eq; split; simpl; try done; control_close.
  - repeat case_match; simplify_eq; split; simpl; try done; control_close.
Qed.

(** The inner loop of the producer takes [min k (length ts)] tasks. *)
Lemma fill_job_spec k (ts ts' : list T) j :
  fill_job k ts [] = (ts', j) ->
  ts ≡ₚ ts' ++ j /\ length j = Nat.min k (length ts)
  /\ length ts = (length ts' + length j)%nat.
Proof.
  rewrite <- (reverse_involutive ts) at 1. rewrite fill_job_reverse.
  intros [= <- <-]. simpl.
  assert (ts ≡ₚ reverse (drop k (reverse ts)) ++ take k (reverse ts)) as HP.
  { rewrite reverse_Permutation, (comm (++)), take_drop.
    by rewrite reverse_Permutation. }
  split; [done|]. split.
  - by rewrite length_take, length_reverse.
  - rewrite HP at 1. by rewrite length_app.
Qed.

Ltac split_worker :=
  match goal with
  | H : ?ws !! ?w = Some ?st |- _ =>
      let ws1 := fresh "ws1" in
      let ws2 := fresh "ws2" in
      let Hins := fresh "Hins" in
      destruct (list_lookup_split ws w st H) as (ws1 & ws2 & -> & Hins);
      rewrite ?Hins in *
  end.

Ltac step_cases0 H :=
  unfold step, main_step, producer_step, worker_step in H; simpl in H;
  repeat case_match; simplify_eq.

Ltac step_cases H :=
  unfold step, main_step, producer_step, worker_step in H; simpl in H;
  rewrite ?range_len_configured in H;
  repeat case_match; simplify_eq.

Local Abbreviation tasks_conserved := (@tasks_conserved T R A tasks).
Local Abbreviation results_conserved := (@results_conserved T R A render).

Lemma tasks_conserved_step a s s' :
  control s -> tasks_conserved s -> step a s = Some s' -> tasks_conserved s'.
Proof.
  intros [Hcrash Hc] Hinv H. destruct s as [p ws m jq rq ac tr].
  unfold tasks_conserved in *. simpl in *.
  destruct a; step_cases H; simpl in *; try split_worker;
    try match goal with H : fill_job _ _ _ = _ |- _ =>
          apply fill_job_spec in H as (HP & _); simpl in HP end;
    rewrite ?bind_app, ?bind_cons, ?rendered_snoc in *; simpl in *;
    rewrite ?app_nil_r in *; try done.
  all: destruct_and?; simplify_eq/=; try done.
  all: try match goal with HP : _ :: _ ≡ₚ _ |- _ =>
             rewrite (app_comm_cons _ _ _ : _ :: _ ++ _ = (_ :: _) ++ _) in Hinv;
             rewrite HP in Hinv end.
  all: try (etrans; [exact Hinv|]; solve_Permutation).
Qed.

Lemma results_conserved_step a s s' :
  results_conserved s -> step a s = Some s' -> results_conserved s'.
Proof.
  intros Hinv H. destruct s as [p ws m jq rq ac tr].
  unfold results_conserved in *. simpl in *.
  destruct a; step_cases H; simpl in *; try split_worker;
    rewrite ?bind_app, ?bind_cons, ?rendered_snoc, ?updated_snoc,
      ?fmap_app, ?concat_app in *;
    simpl in *; rewrite ?app_nil_r in *; try done.
  all: try (etrans; [exact Hinv|]; solve_Permutation).
  rewrite Hinv. solve_Permutation.
Qed.

Local Abbreviation acc_folded := (@acc_folded T R A update a0).
Local Abbreviation workers_ok := (@workers_ok T R A render).

Lemma acc_folded_step a s s' :
  acc_folded s -> step a s = Some s' -> acc_folded s'.
Proof.
  intros Hinv H. destruct s as [p ws m jq rq ac tr].
  unfold acc_folded in *. simpl in *.
  destruct a; step_cases H; simpl in *;
    rewrite ?updated_snoc, ?fold_left_app, ?app_nil_r; simpl; by subst.
Qed.

Lemma lookup_insert_default (ws : list (@wstate T R)) w w' st :
  is_Some (ws !! w) ->
  default WGet (<[w:=st]> ws !! w') =
  if decide (w = w') then st else default WGet (ws !! w').
Proof.
  intros Hw%lookup_lt_is_Some. case_decide as Hd.
  - subst. by rewrite list_lookup_insert_eq.
  - by rewrite list_lookup_insert_ne.
Qed.

Lemma lookup_spawn_default (ws : list (@wstate T R)) w :
  default WGet ((ws ++ [WGet]) !! w) = default WGet (ws !! w).
Proof.
  destruct (decide (w < length ws)%nat) as [Hlt|Hge].
  - by rewrite lookup_app_l.
  - rewrite (lookup_ge_None_2 ws) by lia. rewrite lookup_app_r by lia.
    by destruct (w - length ws)%nat as [|[|?]].
Qed.

Lemma worker_ok_ext w st tr tr' :
  got w tr' = got w tr -> put w tr' = put w tr ->
  worker_ok render w st tr -> worker_ok render w st tr'.
Proof. unfold worker_ok. by intros -> ->. Qed.

Lemma workers_ok_step a s s' :
  workers_ok s -> step a s = Some s' -> workers_ok s'.
Proof.
  intros Hinv H w'. specialize (Hinv w'). destruct s as [p ws m jq rq ac tr].
  simpl in *.
  destruct a as [| |w]; step_cases0 H; simpl in *;
    rewrite ?lookup_spawn_default; try done;
    try (eapply worker_ok_ext; [| |exact Hinv];
         rewrite ?got_snoc, ?put_snoc; simpl; by rewrite app_nil_r).
  all: rewrite lookup_insert_default by eauto.
  all: case_decide as Hw;
    [subst w';
     match goal with H : _ !! _ = Some _ |- _ => rewrite H in Hinv end
    |eapply worker_ok_ext; [| |exact Hinv];
     rewrite ?got_snoc, ?put_snoc; simpl;
     rewrite ?decide_False by done; by rewrite app_nil_r].
  all: simpl in *; rewrite ?got_snoc, ?put_snoc; simpl;
    rewrite ?decide_True by done; rewrite ?app_nil_r.
  - exists (got w tr), j. by rewrite Hinv.
  - done.
  - destruct Hinv as (done & j & -> & -> & Hj).
    rewrite app_nil_r in Hj. rewrite map_app. simpl. by rewrite Hj.
  - destruct Hinv as (done & j & Hg & Hp & Hj).
    exists done, j. repeat split; try done. by rewrite <- app_assoc.
Qed.

Local Abbreviation inv := (@inv T R A render update self tasks a0).
Local Abbreviation init := (@init T R A a0).
Local Abbreviation weight := (@weight T R A self tasks).
Local Abbreviation returns := (@returns T R A render update self tasks).

Lemma inv_init : inv init.
Proof.
  split; unfold init.
  - unfold tasks_conserved. simpl. by rewrite app_nil_r.
  - unfold results_conserved. simpl. done.
  - split; [done|]. simpl. unfold quiet. simpl.
    repeat split; try done; apply not_elem_of_nil.
  - done.
  - by intros w.
Qed.

Lemma inv_step a s s' : inv s -> step a s = Some s' -> inv s'.
Proof.
  intros [Ht Hr Hc Ha Hw] H. split.
  - by eapply tasks_conserved_step.
  - by eapply results_conserved_step.
  - by eapply control_step.
  - by eapply acc_folded_step.
  - by eapply workers_ok_step.
Qed.

Lemma inv_exec sched s s' : inv s -> exec sched s = Some s' -> inv s'.
Proof.
  revert s. induction sched as [|a sched IH]; intros s Hs H; simpl in H.
  - by injection H as <-.
  - destruct (step a s) as [s1|] eqn:Hstep; [|done].
    eapply IH; [|exact H]. by eapply inv_step.
Qed.

Lemma weight_step a s s' : step a s = Some s' -> (weight s' < weight s)%nat.
Proof.
  intros H. destruct s as [p ws m jq rq ac tr].
  assert (1 <= Z.to_nat K)%nat as Hk by (destruct Hcfg as (_ & _ & ?); lia).
  unfold weight. simpl.
  destruct a; step_cases H; simpl in *; try split_worker;
    try match goal with H : fill_job _ _ _ = _ |- _ =>
          apply fill_job_spec in H as (_ & Hj & Hl); simpl in Hj, Hl end;
    rewrite ?sum_list_with_app, ?length_app; simpl;
    rewrite ?length_app; simpl; unfold nprocs; lia.
Qed.

Lemma workers_busy_or_idle (ws : list (@wstate T R)) :
  (exists w todo results, ws !! w = Some (WFor todo results))
  \/ (ws ≫= wtodo = [] /\ ws ≫= wresults = []).
Proof.
  induction ws as [|st ws IH]; [by right|].
  destruct st as [|todo results|].
  - destruct IH as [(w & todo & results & Hw)|[Ht Hr]].
    + left. by exists (S w), todo, results.
    + right. by rewrite !bind_cons, Ht, Hr.
  - left. by exists 0%nat, todo, results.
  - destruct IH as [(w & todo & results & Hw)|[Ht Hr]].
    + left. by exists (S w), todo, results.
    + right. by rewrite !bind_cons, Ht, Hr.
Qed.

Lemma worker_for_enabled s w todo results :
  workers s !! w = Some (WFor todo results) ->
  exists s', step (Worker w) s = Some s'.
Proof.
  intros Hw. simpl. unfold worker_step. rewrite Hw.
  destruct todo; eauto.
Qed.

Lemma producer_running_enabled s ts :
  producer s = PRunning ts -> exists s', step Producer s = Some s'.
Proof.
  intros Hp. simpl. unfold producer_step. rewrite Hp.
  destruct ts; [eauto|]. rewrite range_len_configured.
  destruct (fill_job _ _ _). eauto.
Qed.

(** Before [run] returns some process can move: the caller of [run] waits
    for a batch only while a task is still on its way. *)
Lemma progress s :
  inv s -> main s <> MReturned -> exists a s', step a s = Some s'.
Proof.
  intros [Ht Hr [Hcrash Hc] _ _] Hm.
  destruct (main s) as [|n|remaining|results remaining|n|] eqn:Hmain;
    try done.
  - exists Main. simpl. unfold main_step. rewrite Hmain. eauto.
  - exists Main. simpl. unfold main_step. rewrite Hmain. destruct n; eauto.
  - destruct (decide (remaining = 0)) as [->|Hrem].
    { exists Main. simpl. unfold main_step. rewrite Hmain. simpl. eauto. }
    destruct (result_queue s) as [|batch rq] eqn:Hrq.
    2:{ exists Main. simpl. unfold main_step. rewrite Hmain, Hrq.
        destruct (Z.eqb_spec remaining 0); [done|eauto]. }
    destruct Hc as (Hstarted & Hlen & (_ & _ & Hexited) & Hcount).
    destruct (producer s) as [|ts| |e] eqn:Hp; [done| | |by destruct (Hcrash e)].
    { exists Producer. by eapply producer_running_enabled. }
    destruct (workers_busy_or_idle (workers s))
      as [(w & todo & results & Hw)|[Hidle_t Hidle_r]].
    { exists (Worker w). by eapply worker_for_enabled. }
    destruct (job_queue s) as [|m jq] eqn:Hjq.
    + exfalso. apply Hrem. unfold tasks_conserved, results_conserved in *.
      rewrite Hp, Hjq, Hidle_t in Ht. rewrite Hidle_r, Hrq, Hmain in Hr.
      simpl in *. unfold countdown in Hcount.
      apply Permutation_length in Ht, Hr. rewrite length_fmap in Hr. lia.
    + destruct (workers s) as [|st ws] eqn:Hws.
      { simpl in Hlen. unfold nprocs in Hlen. destruct Hcfg. lia. }
      exists (Worker 0). simpl. unfold worker_step. rewrite Hws, Hjq. simpl.
      destruct st as [|todo results|].
      * destruct m; eauto.
      * destruct todo; eauto.
      * destruct Hexited. left.
  - exists Main. simpl. unfold main_step. rewrite Hmain. destruct results; eauto.
  - exists Main. simpl. unfold main_step. rewrite Hmain. destruct n; eauto.
Qed.

Lemma inv_returns s : inv s -> returns s.
Proof.
  remember (weight s) as n eqn:Hn. revert s Hn.
  induction n as [n IH] using lt_wf_ind. intros s -> Hinv.
  assert (main s = MReturned \/ main s <> MReturned) as [Hm|Hm]
    by (destruct (main s); auto).
  - by apply returns_now.
  - apply returns_later; [by apply progress|].
    intros a s' Hstep. eapply IH; [|reflexivity|by eapply inv_step].
    by eapply weight_step.
Qed.

Lemma workers_ok_exec sched s s' :
  workers_ok s -> exec sched s = Some s' -> workers_ok s'.
Proof.
  revert s. induction sched as [|a sched IH]; intros s Hs H; simpl in H.
  - by injection H as <-.
  - destruct (step a s) as [s1|] eqn:Hstep; [|done].
    eapply IH; [|exact H]. by eapply workers_ok_step.
Qed.

Lemma exec_app sched1 sched2 s :
  exec (sched1 ++ sched2) s = exec sched1 s ≫= exec sched2.
Proof.
  revert s. induction sched1 as [|a sched1 IH]; intros s; simpl; [done|].
  destruct (step a s); [apply IH|done].
Qed.

(** Once every result has been given to [update], every task has been
    rendered once and every result updated once. *)
Lemma all_updated_complete s :
  tasks_conserved s -> results_conserved s -> all_updated tasks s ->
  rendered (trace s) ≡ₚ tasks /\ updated (trace s) ≡ₚ render <$> tasks.
Proof.
  unfold tasks_conserved, results_conserved, all_updated. intros Ht Hr Hu.
  pose proof (Permutation_length Ht) as Hlt.
  pose proof (Permutation_length Hr) as Hlr.
  rewrite length_fmap in Hlr. rewrite !length_app in Hlt, Hlr.
  rewrite (nil_length_inv (ptasks tasks (producer s))) in Ht by lia.
  rewrite (nil_length_inv (job_queue s ≫= msg_tasks)) in Ht by lia.
  rewrite (nil_length_inv (workers s ≫= wtodo)) in Ht by lia.
  rewrite (nil_length_inv (workers s ≫= wresults)) in Hr by lia.
  rewrite (nil_length_inv (concat (result_queue s))) in Hr by lia.
  rewrite (nil_length_inv (mbatch (main s))) in Hr by lia.
  simpl in *. split; [done|]. by rewrite <- Hr, <- Ht.
Qed.

(** With no task nothing is ever rendered or updated. *)
Lemma no_tasks_no_updates s :
  tasks = [] -> inv s -> updated (trace s) = [] /\ acc s = a0.
Proof.
  intros Hnil [Ht Hr _ Ha _].
  unfold tasks_conserved, results_conserved, acc_folded in *.
  rewrite Hnil in Ht. apply Permutation_nil_l in Ht. symmetry in Ht.
  apply app_eq_nil in Ht as [_ Ht]. apply app_eq_nil in Ht as [_ Ht].
  apply app_eq_nil in Ht as [_ Ht]. rewrite Ht in Hr. simpl in Hr.
  apply Permutation_nil_l in Hr. symmetry in Hr.
  apply app_eq_nil in Hr as [_ Hr]. apply app_eq_nil in Hr as [_ Hr].
  apply app_eq_nil in Hr as [_ Hr]. split; [done|]. by rewrite Ha, Hr.
Qed.

(** The caller of [run] starts its workers, and later puts its sentinels,
    without waiting for anyone. *)
Lemma main_spawns n s :
  main s = MSpawn n ->
  exists s', exec (replicate n Main) s = Some s' /\ main s' = MSpawn 0.
Proof.
  revert s. induction n as [|n IH]; intros s Hm; simpl.
  - by exists s.
  - unfold main_step. rewrite Hm. by apply IH.
Qed.

Lemma main_shuts_down n s :
  main s = MShutdown n ->
  exists s', exec (replicate n Main) s = Some s' /\ main s' = MShutdown 0.
Proof.
  revert s. induction n as [|n IH]; intros s Hm; simpl.
  - by exists s.
  - unfold main_step. rewrite Hm. by apply IH.
Qed.

Lemma exec_replicate_add n m s s' s'' :
  exec (replicate n Main) s = Some s' ->
  exec (replicate m Main) s' = Some s'' ->
  exec (replicate (n + m) Main) s = Some s''.
Proof. intros H1 H2. by rewrite replicate_add, exec_app, H1. Qed.

Lemma main_alone_returns :
  tasks = [] ->
  exists n s, exec (replicate n Main) init = Some s /\ main s = MReturned.
Proof.
  intros Hnil.
  destruct (main_spawns (nprocs self)
              (mkState (PRunning tasks) [] (MSpawn (nprocs self)) [] [] a0 []))
    as (s1 & H1 & Hm1); [done|].
  destruct (main_shuts_down (length (workers s1))
              (mkState (producer s1) (workers s1)
                 (MShutdown (length (workers s1)))
                 (job_queue s1) (result_queue s1) (acc s1) (trace s1)))
    as (s2 & H2 & Hm2); [done|].
  exists (1 + (nprocs self + (1 + (1 + (length (workers s1) + 1)))))%nat.
  eexists. split.
  - eapply exec_replicate_add; [reflexivity|].
    eapply exec_replicate_add; [exact H1|].
    eapply exec_replicate_add.
    { simpl. unfold main_step. rewrite Hm1. reflexivity. }
    eapply exec_replicate_add.
    { simpl. unfold main_step. simpl. rewrite Hnil. reflexivity. }
    eapply exec_replicate_add; [exact H2|].
    simpl. unfold main_step. rewrite Hm2. reflexivity.
  - reflexivity.
Qed.
(** C1: on every schedule on which [MulticoreEngine.run] returns, the
    results it gave to [update] are the results [SerialEngine.run] gives to
    [update] on the same tasks, up to their order, and so are the tasks
    rendered: each task is rendered once and each result updated once by
    both engines, the serial one in submission order. *)
Theorem C1_same_results_as_serial sched s :
  exec sched init = Some s -> main s = MReturned ->
  let serial := snd (SerialEngine_run render update tasks a0) in
  updated (trace s) ≡ₚ updated serial
  /\ rendered (trace s) ≡ₚ rendered serial
  /\ rendered serial = tasks
  /\ updated serial = render <$> tasks
  /\ length (rendered (trace s)) = length tasks
  /\ length (updated (trace s)) = length tasks.
Proof.
  intros Hexec Hm. simpl.
  pose proof (inv_exec _ _ _ inv_init Hexec) as [Ht Hr [_ Hc] _ _].
  rewrite Hm in Hc. destruct Hc as (_ & _ & Hall & _).
  destruct (all_updated_complete s Ht Hr Hall) as [Hrend Hupd].
  rewrite SerialEngine_run_eq. simpl.
  rewrite serial_rendered, serial_updated.
  repeat split; try done.
  by rewrite Hrend.
Qed.

(** C5: [run] returns for every task list: on every schedule the multicore
    engine reaches its return after finitely many steps, and the serial
    engine is a fold over the list.  With no tasks the caller of the
    multicore [run] goes to its return without waiting for any other
    process, [update] is never called on any schedule, and the serial run
    does nothing. *)
Theorem C5_run_returns :
  returns init
  /\ SerialEngine_run render update tasks a0
     = (fold_left (fun a task => update (render task) a) tasks a0,
        serial_events render tasks)
  /\ (tasks = [] ->
      (exists n s, exec (replicate n Main) init = Some s
                   /\ main s = MReturned)
      /\ (forall sched s, exec sched init = Some s ->
                          updated (trace s) = [] /\ acc s = a0)
      /\ SerialEngine_run render update tasks a0 = (a0, [])).
Proof.
  split; [apply inv_returns, inv_init|].
  split; [apply SerialEngine_run_eq|].
  intros Hnil. split; [by apply main_alone_returns|]. split.
  - intros sched s Hexec. apply no_tasks_no_updates; [done|].
    by eapply inv_exec; [apply inv_init|].
  - by rewrite Hnil.
Qed.

(** A worker inside a job finishes it on its own: one step per task left
    and one more to put the batch, which is then the whole job's renders. *)
Lemma worker_finishes_job s w todo results :
  workers s !! w = Some (WFor todo results) ->
  exists s',
    exec (replicate (S (length todo)) (Worker w)) s = Some s'
    /\ workers s' !! w = Some WGet
    /\ result_queue s' = result_queue s ++ [results ++ map render todo]
    /\ put w (trace s') = put w (trace s) ++ [results ++ map render todo]
    /\ got w (trace s') = got w (trace s).
Proof.
  revert s results. induction todo as [|t todo IH]; intros s results Hw.
  - eexists. simpl. unfold worker_step. rewrite Hw. split; [reflexivity|].
    simpl. rewrite put_snoc, got_snoc, app_nil_r. simpl.
    rewrite decide_True by done. rewrite app_nil_r.
    repeat split; try done.
    apply list_lookup_insert_eq. by eapply lookup_lt_Some.
  - destruct (IH (mkState (producer s)
                    (<[w := WFor todo (results ++ [render t])]> (workers s))
                    (main s) (job_queue s) (result_queue s) (acc s)
                    (trace s ++ [EvRender (Worker w) t]))
                (results ++ [render t]))
      as (s' & Hexec & Hget & Hrq & Hput & Hgot).
    { simpl. apply list_lookup_insert_eq. by eapply lookup_lt_Some. }
    exists s'. simpl in *. unfold worker_step at 1. rewrite Hw.
    rewrite put_snoc, got_snoc in *. simpl in *.
    rewrite !app_nil_r, <- !app_assoc in *. simpl in *.
    by repeat split.
Qed.


(** C8: the countdown starts at the number of tasks and counts the calls
    of [update]; no sentinel is put on the job queue (and none is on it)
    before all results have been given to [update]; when [run] returns it
    has put exactly one sentinel per worker, [processes] in all. *)
Theorem C8_sentinels_after_countdown sched s :
  exec sched init = Some s ->
  (forall remaining,
      main s = MWhile remaining ->
      remaining
      = Z.of_nat (length tasks) - Z.of_nat (length (updated (trace s))))
  /\ (sentinels (trace s) <> 0%nat \/ None ∈ job_queue s ->
      length (updated (trace s)) = length tasks)
  /\ (main s = MReturned ->
      Z.of_nat (sentinels (trace s)) = _processes self
      /\ Z.of_nat (length (workers s)) = _processes self).
Proof.
  intros Hexec.
  pose proof (inv_exec _ _ _ inv_init Hexec) as [_ _ [_ Hc] _ _].
  assert (0 < _processes self) as Hpos by by destruct Hcfg.
  unfold quiet, countdown, all_updated, nprocs in Hc.
  split; [|split].
  - intros remaining Hm. rewrite Hm in Hc. by destruct_and?.
  - intros Hs. destruct (main s); destruct_and?; try done;
      destruct Hs; try done; try lia.
  - intros Hm. rewrite Hm in Hc. destruct_and?. lia.
Qed.

End RunFacts.

(** ** The concrete run *)

Lemma demo_configured : configured Demo.engine 2.
Proof. repeat split; reflexivity || lia. Qed.

Example demo_final :
  exec Demo.render Demo.update Demo.engine Demo.tasks Demo.schedule (init [])
  = Some Demo.final.
Proof. vm_compute. reflexivity. Qed.

Example demo_result :
  main Demo.final = MReturned /\ acc Demo.final = [5; 4; 3; 2; 1].
Proof. split; reflexivity. Qed.

Lemma C1_witness :
  updated (trace Demo.final)
  ≡ₚ updated (snd (SerialEngine_run Demo.render Demo.update Demo.tasks [])).
Proof.
  assert (configured Demo.engine 2) as Hcfg
    by (repeat split; reflexivity || lia).
  assert (exec Demo.render Demo.update Demo.engine Demo.tasks Demo.schedule
            (init []) = Some Demo.final) as Hrun
    by (vm_compute; reflexivity).
  assert (main Demo.final = MReturned) as Hmain by reflexivity.
  exact (proj1 (C1_same_results_as_serial Demo.render Demo.update Demo.engine
                  Demo.tasks 2 Hcfg [] Demo.schedule Demo.final Hrun Hmain)).
Defined.

Lemma C5_witness :
  returns Demo.render Demo.update Demo.engine Demo.tasks (init []).
Proof.
  assert (configured Demo.engine 2) as Hcfg
    by (repeat split; reflexivity || lia).
  exact (proj1 (C5_run_returns Demo.render Demo.update Demo.engine
                  Demo.tasks 2 Hcfg [])).
Defined.


Lemma C8_witness : Z.of_nat (sentinels (trace Demo.final)) = 2.
Proof.
  assert (configured Demo.engine 2) as Hcfg
    by (repeat split; reflexivity || lia).
  assert (exec Demo.render Demo.update Demo.engine Demo.tasks Demo.schedule
            (init []) = Some Demo.final) as Hrun
    by (vm_compute; reflexivity).
  assert (main Demo.final = MReturned) as Hmain by reflexivity.
  exact (proj1 (proj2 (proj2 (C8_sentinels_after_countdown Demo.render
                  Demo.update Demo.engine Demo.tasks 2 Hcfg [] Demo.schedule
                  Demo.final Hrun)) Hmain)).
Defined.

(** Why the statements about [run] ask for an integer [tasks_per_job]: with
    the fraction 3/2, which the setter stores, the producer stops at [range]
    and the caller of [run] waits for a batch that never comes. *)
Example fraction_job_size_blocks :
  exists s,
    exec Demo.render Demo.update (mkEngine 1 (Py.Float (3 # 2))) [7]
      [Main; Main; Main; Producer] (init [])
    = Some s
    /\ producer s = PCrashed Py.TypeError
    /\ main s = MWhile 1
    /\ forall a,
        step Demo.render Demo.update (mkEngine 1 (Py.Float (3 # 2))) [7] a s
        = None.
Proof.
  eexists. split; [reflexivity|]. split; [reflexivity|].
  split; [reflexivity|].
  intros [| |[|w]]; reflexivity.
Qed.

(** * Further properties *)

(** ** Configuration: what the setters accept and keep *)

Section ConfigurationInvariant.

Variable cpu_count : Z.

Lemma processes_value_positive v n :
  0 < cpu_count -> processes_value cpu_count v = inr n -> 0 < n.
Proof.
  intros Hcpu Hp. destruct v as [|z|r|b|]; cbn in Hp.
  - by injection Hp as <-.
  - destruct (Z.leb_spec z 0); [discriminate|]. by injection Hp as <-.
  - destruct (Z.leb_spec (Z.quot (Qnum r) (Z.pos (Qden r))) 0);
      [discriminate|]. by injection Hp as <-.
  - discriminate.
  - discriminate.
Qed.

Lemma tasks_per_job_value_inv v v' :
  tasks_per_job_value v = inr v' -> v' = v /\ Py.lt_int v 1 = inr false.
Proof.
  unfold tasks_per_job_value.
  destruct (Py.lt_int v 1) as [e|[|]] eqn:Hlt; cbn; try discriminate.
  by intros [= <-].
Qed.

(** The values that pass the test [value < 1]: the numbers from 1 on, plus
    infinity, and nan, with which every comparison is false. *)
Lemma passes_test v :
  Py.lt_int v 1 = inr false <->
  (exists q, Py.number v = Some q /\ (1 <= q)%Q)
  \/ v = Py.Inf false \/ v = Py.NaN.
Proof.
  split.
  - destruct v as [|z|r|[|]|]; cbn; try discriminate; try tauto.
    + destruct (Z.ltb_spec z 1); [discriminate|]. intros _. left.
      exists (inject_Z z). split; [done|]. unfold Qle. simpl. lia.
    + destruct (r ?= inject_Z 1)%Q eqn:Hc; try discriminate; intros _;
        left; exists r; (split; [done|]).
      * apply Qeq_alt in Hc. change (inject_Z 1) with 1%Q in Hc.
        rewrite Hc. apply Qle_refl.
      * apply Qgt_alt in Hc. by apply Qlt_le_weak.
  - intros [(q & Hn & Hq)|[->| ->]]; [|done|done].
    apply (lt_int_false v q 1 Hn). by apply Qle_not_lt.
Qed.

(** The [processes] setter takes [int(value)] and wants it positive: an
    [int] or finite [float] below 1 raises the error about the number of
    processes, one from 1 on is stored as the whole number just below or
    equal to it; an infinite [float] and nan never get that far, [int()]
    raises [OverflowError] and [ValueError] on them. *)
Theorem processes_stores_integer_part
  (self : MulticoreEngine) (v : Py.value) (q : Q) :
  Py.number v = Some q ->
  ((q < 1)%Q ->
     set_processes cpu_count self v = inl (Py.ValueError processes_msg))
  /\ ((1 <= q)%Q ->
        exists n,
          set_processes cpu_count self v
          = inr (mkEngine n (_tasks_per_job self))
          /\ 1 <= n /\ (inject_Z n <= q)%Q /\ (q < inject_Z (n + 1))%Q)
  /\ (forall negative,
        set_processes cpu_count self (Py.Inf negative)
        = inl (Py.OverflowError Py.int_inf_msg))
  /\ set_processes cpu_count self Py.NaN
     = inl (Py.ValueError Py.int_nan_msg).
Proof.
  intros Hn. unfold set_processes.
  destruct v as [|z|r|b|]; simpl in Hn; try discriminate; injection Hn as <-.
  - repeat split; try done; intros Hq; unfold Qlt, Qle in Hq; simpl in Hq;
      cbn.
    + destruct (Z.leb_spec z 0); [done|lia].
    + exists z. destruct (Z.leb_spec z 0); [lia|].
      repeat split; try done; try lia; unfold Qle, Qlt; simpl; lia.
  - destruct r as [num den].
    repeat split; try done; intros Hq; unfold Qlt, Qle in Hq; simpl in Hq;
      cbn.
    + assert (Z.quot num (Z.pos den) <= 0) as Hle.
      { destruct (Z.le_gt_cases 0 num) as [Hpos|Hneg].
        - rewrite Z.quot_small by lia. lia.
        - rewrite <- (Z.opp_involutive num), Z.quot_opp_l by lia.
          pose proof (Z.quot_pos (- num) (Z.pos den)). lia. }
      destruct (Z.leb_spec (Z.quot num (Z.pos den)) 0); [done|lia].
    + assert (0 <= num) as Hnum by lia.
      rewrite Z.quot_div_nonneg by lia.
      pose proof (Z.div_mod num (Z.pos den)) as Hdm.
      pose proof (Z.mod_pos_bound num (Z.pos den)) as Hmod.
      assert (1 <= num / Z.pos den) as Hone.
      { apply Z.div_le_lower_bound; lia. }
      exists (num / Z.pos den).
      destruct (Z.leb_spec (num / Z.pos den) 0); [lia|].
      repeat split; try done; unfold Qle, Qlt; simpl; nia.
Qed.

(** Every engine the constructor returns is well formed, and a setter that
    succeeds keeps it so and leaves the other attribute alone.  The number
    of tasks per job of a well formed engine is a number from 1 on, plus
    infinity, or nan. *)
Theorem configuration_stays_well_formed :
  0 < cpu_count ->
  (forall p k self, __init__ cpu_count p k = inr self -> well_formed self)
  /\ (forall self v self',
        well_formed self -> set_processes cpu_count self v = inr self' ->
        well_formed self' /\ _tasks_per_job self' = _tasks_per_job self)
  /\ (forall self v self',
        well_formed self -> set_tasks_per_job self v = inr self' ->
        well_formed self'
        /\ _processes self' = _processes self /\ _tasks_per_job self' = v)
  /\ (forall self,
        well_formed self ->
        (exists q, Py.number (_tasks_per_job self) = Some q /\ (1 <= q)%Q)
        \/ _tasks_per_job self = Py.Inf false
        \/ _tasks_per_job self = Py.NaN).
Proof.
  intros Hcpu. split; [|split; [|split]].
  - intros p k self. unfold __init__.
    destruct (processes_value cpu_count p) as [e|n] eqn:Hp; [discriminate|].
    cbn.
    destruct (tasks_per_job_value (Py.or_ k (Py.Int 1))) as [e|k'] eqn:Hk;
      [discriminate|].
    cbn. intros [= <-].
    apply tasks_per_job_value_inv in Hk as [-> Hq].
    split; [by eapply processes_value_positive|done].
  - intros self v self' [_ Hk]. unfold set_processes.
    destruct (processes_value cpu_count v) as [e|n] eqn:Hp; [discriminate|].
    cbn. intros [= <-]. split; [|done].
    split; [by eapply processes_value_positive|done].
  - intros self v self' [Hp _]. unfold set_tasks_per_job.
    destruct (tasks_per_job_value v) as [e|k'] eqn:Hk; [discriminate|].
    cbn. intros [= <-].
    apply tasks_per_job_value_inv in Hk as [-> Hq]. by repeat split.
  - intros self [_ Hk]. by apply passes_test.
Qed.

End ConfigurationInvariant.

Lemma processes_stores_integer_part_witness :
  (exists n, set_processes 8 (mkEngine 4 (Py.Int 1)) (Py.Float (27 # 10))
             = inr (mkEngine n (Py.Int 1)) /\ 1 <= n)
  /\ set_processes 8 (mkEngine 4 (Py.Int 1)) (Py.Float (1 # 2))
     = inl (Py.ValueError processes_msg).
Proof.
  destruct (processes_stores_integer_part 8 (mkEngine 4 (Py.Int 1))
              (Py.Float (27 # 10)) (27 # 10) eq_refl) as (_ & Hok & _).
  destruct (processes_stores_integer_part 8 (mkEngine 4 (Py.Int 1))
              (Py.Float (1 # 2)) (1 # 2) eq_refl) as [Hlow _].
  split.
  - destruct Hok as (n & Hn & Hone & _); [discriminate|].
    exists n. split; [exact Hn | exact Hone].
  - apply Hlow. reflexivity.
Defined.

Example processes_fraction_truncated :
  set_processes 8 (mkEngine 4 (Py.Int 1)) (Py.Float (27 # 10))
  = inr (mkEngine 2 (Py.Int 1)).
Proof. reflexivity. Qed.

Lemma configuration_stays_well_formed_witness :
  well_formed (mkEngine 8 (Py.Float (5 # 2)))
  /\ well_formed (mkEngine 8 Py.NaN).
Proof.
  assert (0 < 8) as Hcpu by lia.
  split.
  - exact (proj1 (configuration_stays_well_formed 8 Hcpu)
             Py.None_ (Py.Float (5 # 2)) _ eq_refl).
  - exact (proj1 (configuration_stays_well_formed 8 Hcpu)
             Py.None_ Py.NaN _ eq_refl).
Defined.

(** ** The producer and the serial engine, continued *)

Section BatchingMore.

Context {T R A : Type}.
Variable render : T -> R.
Variable update : R -> A -> A.

(** More fuel does not change what the producer's loop returns. *)
Lemma producer_loop_fuel (fuel fuel' k : nat) (tasks : list T) jobs :
  producer_loop fuel k tasks = Some jobs -> (fuel <= fuel')%nat ->
  producer_loop fuel' k tasks = Some jobs.
Proof.
  revert fuel' tasks jobs.
  induction fuel as [|fuel IH]; intros fuel' tasks jobs Hrun Hle; [done|].
  destruct fuel' as [|fuel']; [lia|]. simpl in *.
  destruct tasks as [|t tasks]; [done|].
  destruct (fill_job k (t :: tasks) []) as [tasks' j].
  destruct (producer_loop fuel k tasks') as [js|] eqn:Hrec; [|done].
  rewrite (IH fuel' tasks' js Hrec) by lia. done.
Qed.

(** Every job the producer puts has at least one task and at most
    [tasks_per_job]; together the jobs hold as many tasks as were given. *)
Theorem producer_job_sizes
  (self : MulticoreEngine) (K : Z) (tasks : list T) (fuel : nat) :
  _tasks_per_job self = Py.Int K -> 1 <= K -> (length tasks < fuel)%nat ->
  exists jobs,
    _producer fuel self tasks = Some (inr jobs)
    /\ Forall (fun j => 1 <= Z.of_nat (length j) <= K) jobs
    /\ length (concat jobs) = length tasks.
Proof.
  intros Hself HK Hfuel.
  destruct (producer_configured fuel self K tasks Hself HK Hfuel)
    as (jobs & Hrun & Hcat & Hix).
  exists jobs. split; [done|]. split.
  - apply Forall_lookup. intros i j. rewrite Hix. case_decide; [|done].
    intros [= <-]. rewrite length_take, length_drop, length_reverse. lia.
  - by rewrite Hcat, length_reverse.
Qed.

(** Running the serial engine on two lists one after the other is running
    it on their concatenation: the second run starts from the state the
    first one left, and the traces follow each other. *)
Theorem serial_run_app (tasks1 tasks2 : list T) (a : A) :
  SerialEngine_run render update (tasks1 ++ tasks2) a
  = (fst (SerialEngine_run render update tasks2
            (fst (SerialEngine_run render update tasks1 a))),
     snd (SerialEngine_run render update tasks1 a)
     ++ snd (SerialEngine_run render update tasks2
               (fst (SerialEngine_run render update tasks1 a)))).
Proof.
  rewrite !SerialEngine_run_eq. simpl.
  rewrite fold_left_app. unfold serial_events. by rewrite bind_app.
Qed.

End BatchingMore.

Lemma producer_job_sizes_witness :
  exists jobs,
    _producer 6 (mkEngine 2 (Py.Int 2)) [1; 2; 3; 4; 5] = Some (inr jobs)
    /\ Forall (fun j => 1 <= Z.of_nat (length j) <= 2) jobs.
Proof.
  destruct (producer_job_sizes (mkEngine 2 (Py.Int 2)) 2 [1; 2; 3; 4; 5] 6)
    as (jobs & Hrun & Hsize & _); [reflexivity | lia | simpl; lia |].
  exists jobs. split; [exact Hrun | exact Hsize].
Defined.

(** ** The multicore engine: order and hand-over, for any configuration *)

Section RunOrder.

Context {T R A : Type}.
Variable render : T -> R.
Variable update : R -> A -> A.
Variable self : MulticoreEngine.
Variable tasks : list T.
Variable a0 : A.

Local Abbreviation state := (@state T R A).
Local Abbreviation step := (step render update self tasks).
Local Abbreviation exec := (exec render update self tasks).
Local Abbreviation init := (@init T R A a0).

Implicit Types (tr : list (@event T R)) (ws : list (@wstate T R)).

Ltac step_split H :=
  unfold step, main_step, producer_step, worker_step in H;
  simpl in H; repeat case_match; simplify_eq.

Ltac worker_split :=
  match goal with
  | H : ?ws !! ?w = Some ?st |- _ =>
      let ws1 := fresh "ws1" in
      let ws2 := fresh "ws2" in
      let Hins := fresh "Hins" in
      destruct (list_lookup_split ws w st H) as (ws1 & ws2 & -> & Hins);
      rewrite ?Hins in *
  end.

Ltac trace_simpl :=
  unfold produced, received, exits, rendered_by, all_put, queued_jobs,
    queued_sentinels, exited, updated, rendered, sentinels, got, put in *;
  rewrite ?omap_app, ?length_app, ?concat_app in *; simpl in *;
  rewrite ?app_nil_r in *;
  repeat match goal with
    | |- context [list_omap ?X ?Y ?f ?l] =>
        change (list_omap X Y f l) with (omap f l) in *
    | H : context [list_omap ?X ?Y ?f ?l] |- _ =>
        change (list_omap X Y f l) with (omap f l) in *
    end.

(** A property kept by every step holds along every schedule. *)
Lemma exec_invariant (P : state -> Prop) :
  (forall a s s', P s -> step a s = Some s' -> P s') ->
  forall sched s s', P s -> exec sched s = Some s' -> P s'.
Proof.
  intros Hstep sched. induction sched as [|a sched IH]; intros s s' Hs H;
    simpl in H.
  - by injection H as <-.
  - destruct (step a s) as [s1|] eqn:Hs1; [|done]. eauto.
Qed.

Local Abbreviation fifo_jobs := (@fifo_jobs T R A).
Local Abbreviation sentinels_accounted := (@sentinels_accounted T R A).
Local Abbreviation renders_in_order := (@renders_in_order T R A).
Local Abbreviation results_in_order := (@results_in_order T R A).
Local Abbreviation sole_worker := (@sole_worker T R A).

Lemma fifo_jobs_step a s s' : fifo_jobs s -> step a s = Some s' -> fifo_jobs s'.
Proof.
  unfold fifo_jobs. intros Hinv H. destruct s as [p ws m jq rq ac tr].
  simpl in *.
  destruct a; step_split H; simpl in *; trace_simpl; try done.
  all: by rewrite Hinv, <- app_assoc.
Qed.

Lemma sentinels_accounted_step a s s' :
  sentinels_accounted s -> step a s = Some s' -> sentinels_accounted s'.
Proof.
  unfold sentinels_accounted. intros [Hq He] H.
  destruct s as [p ws m jq rq ac tr]. simpl in *.
  destruct a; step_split H; simpl in *; try worker_split; trace_simpl;
    try done; split; lia.
Qed.

Lemma results_in_order_step a s s' :
  results_in_order s -> step a s = Some s' -> results_in_order s'.
Proof.
  unfold results_in_order. intros Hinv H.
  destruct s as [p ws m jq rq ac tr]. simpl in *.
  destruct a; step_split H; simpl in *; trace_simpl; try done.
  - by rewrite <- Hinv, <- !app_assoc.
  - by rewrite <- Hinv, <- !app_assoc.
Qed.
Lemma renders_in_order_step a s s' :
  renders_in_order s -> step a s = Some s' -> renders_in_order s'.
Proof.
  intros Hinv H w'. specialize (Hinv w'). destruct s as [p ws m jq rq ac tr].
  simpl in *.
  destruct a as [| |w]; step_split H; simpl in *;
    rewrite ?lookup_spawn_default; trace_simpl; try done.
  all: rewrite lookup_insert_default by eauto.
  all: case_decide as Hw;
    [subst w';
     match goal with H : _ !! _ = Some _ |- _ => rewrite H in Hinv end
    |]; simpl in *; rewrite ?decide_True, ?decide_False by done;
    simpl; rewrite ?app_nil_r, ?concat_app; simpl; rewrite ?app_nil_r;
    try done.
  all: rewrite ?app_nil_r in Hinv; rewrite <- ?app_assoc; simpl;
    try done; by rewrite <- Hinv.
Qed.

Lemma sole_worker_step a s s' :
  sole_worker s -> step a s = Some s' -> sole_worker s'.
Proof.
  unfold sole_worker. intros Hinv H. destruct s as [p ws m jq rq ac tr].
  simpl in *.
  destruct a as [| |w]; step_split H; simpl in *;
    rewrite ?length_app, ?length_insert; simpl; intros Hlen;
    try (destruct Hinv as [Hg Hp]; [lia|]); trace_simpl; try done.
  all: match goal with H : _ !! _ = Some _ |- _ =>
         apply lookup_lt_Some in H end.
  all: replace w with 0%nat by lia; simpl.
  all: by rewrite Hg, Hp.
Qed.

(** Once [run] has returned the caller's state is not touched again,
    whatever the processes still do. *)
Lemma returned_step a s s' :
  main s = MReturned -> step a s = Some s' ->
  main s' = MReturned /\ acc s' = acc s
  /\ updated (trace s') = updated (trace s)
  /\ sentinels (trace s') = sentinels (trace s).
Proof.
  intros Hm H. destruct s as [p ws m jq rq ac tr]. simpl in *. subst m.
  destruct a; step_split H; simpl in *; trace_simpl; done.
Qed.

Lemma fifo_jobs_exec sched s : exec sched init = Some s -> fifo_jobs s.
Proof. by apply (exec_invariant fifo_jobs fifo_jobs_step). Qed.

Lemma sentinels_accounted_exec sched s :
  exec sched init = Some s -> sentinels_accounted s.
Proof.
  by apply (exec_invariant sentinels_accounted sentinels_accounted_step).
Qed.

Lemma renders_in_order_exec sched s :
  exec sched init = Some s -> renders_in_order s.
Proof.
  apply (exec_invariant renders_in_order renders_in_order_step).
  by intros w.
Qed.

Lemma results_in_order_exec sched s :
  exec sched init = Some s -> results_in_order s.
Proof. by apply (exec_invariant results_in_order results_in_order_step). Qed.

Lemma sole_worker_exec sched s : exec sched init = Some s -> sole_worker s.
Proof. by apply (exec_invariant sole_worker sole_worker_step). Qed.

(** On every schedule the jobs are taken from the job queue in the order
    the producer put them, each by one worker: the jobs put are the jobs
    taken so far, in that order, followed by the jobs still waiting. *)
Theorem jobs_taken_in_order sched s :
  exec sched init = Some s ->
  produced (trace s) = received (trace s) ++ queued_jobs (job_queue s).
Proof. apply fifo_jobs_exec. Qed.

(** On every schedule each sentinel put is either still on the job queue or
    was taken by a worker, which then left its loop; a worker leaves its
    loop only that way. *)
Theorem sentinel_ends_one_worker sched s :
  exec sched init = Some s ->
  sentinels (trace s)
  = (queued_sentinels (job_queue s) + exited (workers s))%nat
  /\ exits (trace s) = exited (workers s).
Proof.
  intros [Hq He]%sentinels_accounted_exec. split; [|done]. by rewrite <- He.
Qed.

(** On every schedule a worker renders the tasks of the jobs it took, in
    the order it took them and in each job's order; what it has rendered,
    followed by what is left of its current job, is those jobs joined. *)
Theorem worker_renders_in_order sched s w :
  exec sched init = Some s ->
  rendered_by w (trace s) ++ wtodo (default WGet (workers s !! w))
  = concat (got w (trace s)).
Proof. intros Hexec. by apply (renders_in_order_exec sched). Qed.

(** On every schedule the results reach [update] in the order their batches
    were put on the result queue, each batch in its own order: the results
    updated, then the rest of the batch in hand, then the batches waiting,
    are the batches put, joined. *)
Theorem results_updated_in_order sched s :
  exec sched init = Some s ->
  updated (trace s) ++ mbatch (main s) ++ concat (result_queue s)
  = concat (all_put (trace s)).
Proof. apply results_in_order_exec. Qed.

(** Once [run] has returned, nothing the other processes still do calls
    [update] or changes the caller's state, and no further sentinel is
    put. *)
Theorem nothing_after_return sched s s' :
  main s = MReturned -> exec sched s = Some s' ->
  main s' = MReturned /\ acc s' = acc s
  /\ updated (trace s') = updated (trace s)
  /\ sentinels (trace s') = sentinels (trace s).
Proof.
  revert s. induction sched as [|a sched IH]; intros s Hm H; simpl in H.
  - by injection H as <-.
  - destruct (step a s) as [s1|] eqn:Hs1; [|done].
    destruct (returned_step a s s1 Hm Hs1) as (Hm1 & Ha & Hu & Hs).
    destruct (IH s1 Hm1 H) as (? & ? & ? & ?).
    repeat split; congruence.
Qed.

End RunOrder.

(** ** The multicore engine: a configured run from start to rest *)

Section RunMore.

Context {T R A : Type}.
Variable render : T -> R.
Variable update : R -> A -> A.
Variable self : MulticoreEngine.
Variable tasks : list T.
Variable K : Z.
Hypothesis Hcfg : configured self K.
Variable a0 : A.

Local Abbreviation state := (@state T R A).
Local Abbreviation step := (step render update self tasks).
Local Abbreviation exec := (exec render update self tasks).
Local Abbreviation init := (@init T R A a0).
Local Abbreviation control := (@control T R A self tasks).
Local Abbreviation inv := (@inv T R A render update self tasks a0).
Local Abbreviation weight := (@weight T R A self tasks).
Local Abbreviation producer_in_order := (@producer_in_order T R A tasks).
Local Abbreviation producer_refines := (@producer_refines T R A self tasks).
Local Abbreviation nothing_empty := (@nothing_empty T R A).

Implicit Types (tr : list (@event T R)) (ws : list (@wstate T R)).

Ltac step_split H :=
  unfold step, main_step, producer_step, worker_step in H;
  simpl in H; rewrite ?(range_len_configured self K Hcfg) in H;
  repeat case_match; simplify_eq.

Ltac worker_split :=
  match goal with
  | H : ?ws !! ?w = Some ?st |- _ =>
      let ws1 := fresh "ws1" in
      let ws2 := fresh "ws2" in
      let Hins := fresh "Hins" in
      destruct (list_lookup_split ws w st H) as (ws1 & ws2 & -> & Hins);
      rewrite ?Hins in *
  end.

Ltac trace_simpl :=
  unfold produced, received, exits, rendered_by, all_put, queued_jobs,
    queued_sentinels, exited, updated, rendered, sentinels, got, put in *;
  rewrite ?omap_app, ?length_app, ?concat_app in *; simpl in *;
  rewrite ?app_nil_r in *;
  repeat match goal with
    | |- context [list_omap ?X ?Y ?f ?l] =>
        change (list_omap X Y f l) with (omap f l) in *
    | H : context [list_omap ?X ?Y ?f ?l] |- _ =>
        change (list_omap X Y f l) with (omap f l) in *
    end.

Lemma positive_job_size : (1 <= Z.to_nat K)%nat.
Proof. destruct Hcfg as (_ & _ & ?). lia. Qed.

Lemma fill_job_order k (ts ts' : list T) j :
  fill_job k ts [] = (ts', j) -> reverse ts = j ++ reverse ts'.
Proof.
  rewrite <- (reverse_involutive ts) at 1. rewrite fill_job_reverse.
  intros [= <- <-]. simpl. by rewrite reverse_involutive, take_drop.
Qed.

(** A property kept by the steps of states that satisfy [inv] holds along
    every schedule from the start. *)
Lemma exec_invariant_inv (P : state -> Prop) :
  P init ->
  (forall a s s', inv s -> P s -> step a s = Some s' -> P s') ->
  forall sched s, exec sched init = Some s -> inv s /\ P s.
Proof.
  intros Hinit Hstep sched s Hexec.
  refine (exec_invariant render update self tasks (fun s => inv s /\ P s)
            _ sched init s _ Hexec).
  - intros a s1 s2 [Hi HP] Hs. split; [by eapply inv_step|by eapply Hstep].
  - split; [by apply inv_init|done].
Qed.

Lemma producer_in_order_step a s s' :
  inv s -> producer_in_order s -> step a s = Some s' -> producer_in_order s'.
Proof.
  intros [_ _ [Hcrash Hc] _ _] Hinv H. unfold producer_in_order in *.
  destruct s as [p ws m jq rq ac tr]. simpl in *.
  destruct a; step_split H; simpl in *; trace_simpl;
    destruct_and?; simplify_eq/=; try done.
  all: match goal with H : fill_job _ _ _ = _ |- _ =>
         apply fill_job_order in H; rewrite H in Hinv end.
  all: by rewrite Hinv, <- app_assoc.
Qed.

Lemma nothing_empty_step a s s' :
  nothing_empty s -> step a s = Some s' -> nothing_empty s'.
Proof.
  pose proof positive_job_size as Hk.
  intros (Hj & Hw & Hr) H. unfold nothing_empty.
  destruct s as [p ws m jq rq ac tr]. simpl in *.
  destruct a; step_split H; simpl in *; try worker_split;
    try match goal with H : fill_job _ _ _ = _ |- _ =>
          apply fill_job_spec in H as (_ & Hlen & _); simpl in Hlen end;
    rewrite ?Forall_app, ?Forall_cons, ?Forall_nil in *;
    destruct_and?; repeat split; try done.
  - intros [= ->]. simpl in Hlen. lia.
  - intros [= ->]. done.
  - intros ->. done.
  - intros [= -> Hnil]. by destruct results.
Qed.
Lemma producer_refines_step a s s' :
  inv s -> producer_refines s -> step a s = Some s' -> producer_refines s'.
Proof.
  intros [_ _ [Hcrash Hc] _ _] Hinv H k fuel js Hk.
  pose proof (range_len_configured self K Hcfg) as Hrange.
  assert (k = Z.to_nat K) as -> by congruence.
  specialize (fun fuel js => Hinv (Z.to_nat K) fuel js Hrange).
  clear Hk Hrange.
  destruct s as [p ws m jq rq ac tr]. simpl in *.
  destruct a; step_split H; simpl in *; trace_simpl;
    destruct_and?; simplify_eq/=; try (by apply Hinv).
  all: intros Hloop;
    match goal with Hf : fill_job _ _ _ = (_, ?j) |- _ =>
      destruct (Hinv (S fuel) (j :: js)) as [fuel' Hfuel'];
      [simpl; by rewrite Hf, Hloop
      |exists fuel'; by rewrite <- app_assoc]
    end.
Qed.

Lemma weight_exec sched s s' :
  exec sched s = Some s' -> (length sched + weight s' <= weight s)%nat.
Proof.
  revert s. induction sched as [|a sched IH]; intros s H; simpl in H.
  - injection H as <-. simpl. lia.
  - destruct (step a s) as [s1|] eqn:Hs1; [|done].
    pose proof (weight_step render update self tasks K Hcfg a s s1 Hs1).
    specialize (IH s1 H). simpl. lia.
Qed.

(** When every result has been given to [update] nothing is on its way
    any more. *)
Lemma all_updated_empty s :
  inv s -> all_updated tasks s ->
  ptasks tasks (producer s) = [] /\ job_queue s ≫= msg_tasks = []
  /\ workers s ≫= wtodo = [] /\ workers s ≫= wresults = []
  /\ concat (result_queue s) = [] /\ mbatch (main s) = [].
Proof.
  intros [Ht Hr _ _ _] Hu.
  unfold tasks_conserved, results_conserved, all_updated in *.
  apply Permutation_length in Ht, Hr.
  rewrite length_fmap in Hr. rewrite !length_app in Ht, Hr.
  repeat split; apply nil_length_inv; lia.
Qed.

Lemma fold_left_update_perm (l1 l2 : list R) :
  (forall r1 r2 a, update r1 (update r2 a) = update r2 (update r1 a)) ->
  l1 ≡ₚ l2 ->
  forall a, fold_left (fun a r => update r a) l1 a
            = fold_left (fun a r => update r a) l2 a.
Proof.
  intros Hcomm Hperm. induction Hperm as [|x l l' _ IH|x y l|l l' l'' _ IH1 _ IH2];
    intros a; simpl.
  - done.
  - apply IH.
  - by rewrite Hcomm.
  - by rewrite IH1, IH2.
Qed.

Lemma fold_left_update_fmap (l : list T) a :
  fold_left (fun a r => update r a) (render <$> l) a
  = fold_left (fun a task => update (render task) a) l a.
Proof. revert a. induction l as [|t l IH]; intros a; simpl; [done|apply IH]. Qed.

Lemma map_fmap {X Y} (f : X -> Y) (l : list X) : map f l = f <$> l.
Proof. induction l as [|x l IH]; simpl; [done|by rewrite IH]. Qed.

Lemma concat_queued_jobs (q : list (option (@job T))) :
  concat (queued_jobs q) = q ≫= msg_tasks.
Proof.
  induction q as [|[j|] q IH]; [done|..]; rewrite bind_cons; simpl.
  - f_equal. exact IH.
  - exact IH.
Qed.

Lemma exited_le ws : (exited ws <= length ws)%nat.
Proof.
  induction ws as [|st ws IH]; [done|]. destruct st.
  - change (exited (WGet :: ws)) with (exited ws). simpl. lia.
  - change (exited (WFor todo results :: ws)) with (exited ws). simpl. lia.
  - change (exited (WExited :: ws)) with (S (exited ws)). simpl. lia.
Qed.

Lemma exited_all ws :
  exited ws = length ws -> Forall (fun w => w = WExited) ws.
Proof.
  induction ws as [|st ws IH]; [by constructor|].
  pose proof (exited_le ws) as Hws. destruct st.
  - change (exited (WGet :: ws)) with (exited ws). simpl. lia.
  - change (exited (WFor todo results :: ws)) with (exited ws). simpl. lia.
  - change (exited (WExited :: ws)) with (S (exited ws)). simpl.
    intros Hn. constructor; [done|]. apply IH. lia.
Qed.

Lemma more_invariants sched s :
  exec sched init = Some s ->
  inv s /\ producer_in_order s /\ producer_refines s /\ nothing_empty s.
Proof.
  apply (exec_invariant_inv
           (fun s => producer_in_order s /\ producer_refines s
                     /\ nothing_empty s)).
  - split; [|split].
    + unfold producer_in_order. by simpl.
    + intros k fuel js _ Hloop. by exists fuel.
    + by repeat split.
  - intros a s1 s2 Hi (Ho & Hr & He) Hs. split; [|split].
    + by eapply producer_in_order_step.
    + by eapply producer_refines_step.
    + by eapply nothing_empty_step.
Qed.

(** The jobs put on the job queue during a run are those of the batching
    loop run on its own, in the same order: at any moment a first part of
    them, and all of them once [run] has returned. *)
Theorem run_puts_producer_jobs sched s fuel jobs :
  exec sched init = Some s ->
  _producer fuel self tasks = Some (inr jobs) ->
  exists rest,
    jobs = produced (trace s) ++ rest
    /\ (main s = MReturned -> rest = []).
Proof.
  intros Hexec Hprod.
  destruct (more_invariants sched s Hexec) as (Hinv & _ & Href & _).
  pose proof positive_job_size as Hk.
  pose proof (range_len_configured self K Hcfg) as Hrange.
  destruct (producer_loop_reverse (S (length (ptasks tasks (producer s))))
              (Z.to_nat K) (reverse (ptasks tasks (producer s))) Hk)
    as (js & Hjs & _); [rewrite length_reverse; lia|].
  rewrite reverse_involutive in Hjs.
  destruct (Href _ _ _ Hrange Hjs) as [fuel' Hall].
  assert (jobs = produced (trace s) ++ js) as ->.
  { unfold _producer in Hprod. rewrite Hrange in Hprod.
    destruct tasks as [|t ts] eqn:Htasks.
    - injection Hprod as <-. destruct fuel'; [done|]. simpl in Hall.
      by injection Hall as <-.
    - destruct (producer_loop fuel (Z.to_nat K) (t :: ts)) as [js'|] eqn:Hl;
        [|done].
      injection Hprod as <-.
      pose proof (producer_loop_fuel _ (fuel `max` fuel') _ _ _ Hl
                    (Nat.le_max_l _ _)) as H1.
      pose proof (producer_loop_fuel _ (fuel `max` fuel') _ _ _ Hall
                    (Nat.le_max_r _ _)) as H2.
      congruence. }
  exists js. split; [done|]. intros Hm.
  pose proof (inv_control _ _ _ _ _ _ Hinv) as [_ Hc]. rewrite Hm in Hc.
  destruct Hc as (_ & _ & Hu & _).
  destruct (all_updated_empty s Hinv Hu) as (Hp & _).
  rewrite Hp in Hjs. simpl in Hjs. by injection Hjs as <-.
Qed.

Lemma returned_facts s :
  inv s -> main s = MReturned ->
  producer s <> PNotStarted /\ length (workers s) = nprocs self
  /\ all_updated tasks s /\ sentinels (trace s) = nprocs self.
Proof.
  intros Hinv Hm. pose proof (inv_control _ _ _ _ _ _ Hinv) as [_ Hc].
  by rewrite Hm in Hc.
Qed.

(** Every schedule is finite, and the run comes to rest cleanly: no
    schedule has more than [6 + 4 * processes + 20 * len(tasks)] moves, and
    when no process can move any more [run] has returned, the producer and
    every worker have ended, and both queues are empty. *)
Theorem run_comes_to_rest sched s :
  exec sched init = Some s ->
  Z.of_nat (length sched)
  <= 6 + 4 * _processes self + 20 * Z.of_nat (length tasks)
  /\ (quiescent render update self tasks s ->
      main s = MReturned /\ producer s = PExited
      /\ Forall (fun w => w = WExited) (workers s)
      /\ job_queue s = [] /\ result_queue s = []).
Proof.
  intros Hexec. split.
  { pose proof (weight_exec sched init s Hexec) as Hw.
    unfold weight at 2 in Hw. simpl in Hw. unfold nprocs in Hw.
    destruct Hcfg as (Hp & _). lia. }
  intros Hq.
  destruct (more_invariants sched s Hexec) as (Hinv & _ & _ & Hne).
  pose proof (sentinels_accounted_exec render update self tasks a0 sched s
                Hexec) as [Hsent Hexits].
  assert (main s = MReturned) as Hm.
  { destruct (main s) eqn:Hmain; try done;
      destruct (progress render update self tasks K Hcfg a0 s Hinv)
        as (a & s' & Hs); try (by rewrite Hmain);
      by rewrite (Hq a) in Hs. }
  destruct (returned_facts s Hinv Hm) as (Hstart & Hlen & Hu & Hs).
  destruct (all_updated_empty s Hinv Hu) as (_ & Hjq & _ & _ & Hrq & _).
  pose proof (inv_control _ _ _ _ _ _ Hinv) as [Hcrash _].
  destruct Hne as (Hj & _ & Hr).
  assert (producer s = PExited) as Hp.
  { destruct (producer s) as [|ts| |e] eqn:Hprod; try done.
    - destruct (producer_running_enabled render update self tasks K Hcfg
                  s ts Hprod) as [s' Hs'].
      by rewrite (Hq Producer) in Hs'.
    - by destruct (Hcrash e). }
  assert (queued_jobs (job_queue s) = []) as Hnojobs.
  { clear -Hj Hjq. induction (job_queue s) as [|[j|] q IH].
    - done.
    - rewrite bind_cons in Hjq. apply app_eq_nil in Hjq as [Hnil _].
      simpl in Hnil. subst j. by inversion Hj.
    - rewrite bind_cons in Hjq. simpl in Hjq. inversion Hj. by apply IH. }
  assert (queued_sentinels (job_queue s) = length (job_queue s)) as Hqs.
  { clear -Hnojobs. induction (job_queue s) as [|[j|] q IH]; [done|done|].
    change (queued_sentinels (None :: q)) with (S (queued_sentinels q)).
    simpl. f_equal. by apply IH. }
  assert (Forall (fun w => w = WExited) (workers s)) as Hall.
  { apply Forall_lookup. intros w st Hw. destruct st as [|todo results|].
    - destruct (job_queue s) as [|m q] eqn:Hqueue.
      + exfalso.
        assert (exited (workers s) = length (workers s)) as Hex
          by (simpl in Hqs; lia).
        apply exited_all in Hex.
        by pose proof (proj1 (Forall_lookup _ _) Hex w _ Hw).
      + exfalso. pose proof (Hq (Worker w)) as Hstuck. simpl in Hstuck.
        unfold worker_step in Hstuck. rewrite Hw, Hqueue in Hstuck.
        by destruct m.
    - exfalso.
      destruct (worker_for_enabled render update self tasks s w todo
                  results Hw) as [s' Hs'].
      by rewrite (Hq (Worker w)) in Hs'.
    - done. }
  assert (exited (workers s) = length (workers s)) as Hex.
  { clear -Hall. induction Hall as [|st ws -> _ IH]; [done|].
    change (exited (WExited :: ws)) with (S (exited ws)). simpl.
    by rewrite IH. }
  repeat split; try done.
  - apply nil_length_inv. lia.
  - destruct (result_queue s) as [|results rq]; [done|].
    simpl in Hrq. apply app_eq_nil in Hrq as [-> _]. by inversion Hr.
Qed.

(** When the order of the calls of [update] does not matter to the caller's
    state, the multicore run leaves it in the state the serial run does. *)
Theorem order_free_update sched s :
  (forall r1 r2 a, update r1 (update r2 a) = update r2 (update r1 a)) ->
  exec sched init = Some s -> main s = MReturned ->
  acc s = fst (SerialEngine_run render update tasks a0).
Proof.
  intros Hcomm Hexec Hm.
  destruct (more_invariants sched s Hexec) as (Hinv & _).
  destruct (returned_facts s Hinv Hm) as (_ & _ & Hu & _).
  destruct Hinv as [Ht Hr _ Ha _].
  destruct (all_updated_complete render tasks s Ht Hr Hu) as [_ Hperm].
  rewrite SerialEngine_run_eq. simpl. unfold acc_folded in Ha.
  by rewrite Ha, (fold_left_update_perm _ _ Hcomm Hperm),
    fold_left_update_fmap.
Qed.

(** With one worker process the results reach [update] in one order on
    every schedule: the tasks from the last submitted to the first; the
    caller's state is that of the serial run over the reversed list. *)
Theorem single_worker_order sched s :
  _processes self = 1 ->
  exec sched init = Some s -> main s = MReturned ->
  updated (trace s) = render <$> reverse tasks
  /\ acc s = fst (SerialEngine_run render update (reverse tasks) a0).
Proof.
  intros Hone Hexec Hm.
  destruct (more_invariants sched s Hexec) as (Hinv & Hord & _ & _).
  destruct (returned_facts s Hinv Hm) as (_ & Hlen & Hu & _).
  destruct (all_updated_empty s Hinv Hu)
    as (Hp & Hjq & Htodo & Hres & Hrq & Hmb).
  pose proof (results_in_order_exec render update self tasks a0 sched s Hexec)
    as Hresults.
  pose proof (fifo_jobs_exec render update self tasks a0 sched s Hexec)
    as Hfifo.
  destruct (sole_worker_exec render update self tasks a0 sched s Hexec)
    as [Hgot Hput].
  { rewrite Hlen. unfold nprocs. rewrite Hone. simpl. lia. }
  pose proof (inv_workers _ _ _ _ _ _ Hinv 0%nat) as Hw.
  unfold results_in_order, fifo_jobs, producer_in_order in *.
  rewrite Hmb, Hrq, !app_nil_r in Hresults.
  rewrite Hp in Hord. simpl in Hord. rewrite app_nil_r in Hord.
  assert (concat (put 0 (trace s)) = render <$> concat (got 0 (trace s)))
    as Hbatches.
  { destruct (workers s) as [|st [|st' ws]] eqn:Hws; simpl in Hw.
    - rewrite Hw. by rewrite <- concat_map, map_fmap.
    - rewrite bind_cons in Htodo. rewrite bind_cons in Hres.
      simpl in Htodo, Hres.
      rewrite app_nil_r in Htodo, Hres.
      destruct st as [|todo results|]; simpl in *;
        try (rewrite Hw; by rewrite <- concat_map, map_fmap).
      subst todo results. destruct Hw as (done & j & -> & -> & Hj).
      simpl in Hj. symmetry in Hj. apply map_eq_nil in Hj as ->.
      rewrite concat_app. simpl. rewrite app_nil_r.
      by rewrite <- concat_map, map_fmap.
    - simpl in Hlen. unfold nprocs in Hlen. rewrite Hone in Hlen.
      simpl in Hlen. lia. }
  assert (updated (trace s) = render <$> reverse tasks) as Hupd.
  { rewrite Hresults, Hput, Hbatches, <- Hgot, Hord, Hfifo, concat_app.
    by rewrite concat_queued_jobs, Hjq, app_nil_r. }
  split; [done|].
  rewrite SerialEngine_run_eq. simpl.
  pose proof (inv_acc _ _ _ _ _ _ Hinv) as Ha. unfold acc_folded in Ha.
  by rewrite Ha, Hupd, fold_left_update_fmap.
Qed.

(** [worker_count] is the number of worker processes run: never more have
    been started, and all of them once the caller consumes results. *)
Theorem worker_count_is_started sched s :
  exec sched init = Some s ->
  Z.of_nat (length (workers s)) <= worker_count self
  /\ (forall n, main s = MSpawn n ->
                Z.of_nat (length (workers s) + n) = worker_count self)
  /\ (main s <> MStart -> (forall n, main s <> MSpawn n) ->
      Z.of_nat (length (workers s)) = worker_count self).
Proof.
  intros Hexec.
  destruct (more_invariants sched s Hexec) as (Hinv & _).
  pose proof (inv_control _ _ _ _ _ _ Hinv) as [_ Hc].
  unfold worker_count, nprocs in *. destruct Hcfg as (Hpos & _).
  destruct (main s) as [|n| | | |]; destruct_and?; repeat split;
    try done; try lia.
  all: try (intros n' [=]; subst; lia).
  all: try (intros _ Hn; by destruct (Hn n)).
  match goal with H : workers s = [] |- _ => rewrite H end. simpl. lia.
Qed.

(** No empty message travels: every job on the job queue has a task, every
    batch on the result queue has a result, and a worker inside a job has a
    task left or a result made. *)
Theorem no_empty_message sched s :
  exec sched init = Some s ->
  Forall (fun m => m <> Some []) (job_queue s)
  /\ Forall (fun w => w <> WFor [] []) (workers s)
  /\ Forall (fun results => results <> []) (result_queue s).
Proof. intros Hexec. by destruct (more_invariants sched s Hexec) as (_ & _ & _ & ?). Qed.

End RunMore.

(** ** A number of tasks per job that is not whole *)

Section FractionalJobSize.

Context {T R A : Type}.
Variable render : T -> R.
Variable update : R -> A -> A.
Variable self : MulticoreEngine.
Variable tasks : list T.
Variable a0 : A.
Variable q : Q.
Hypothesis Hfraction : _tasks_per_job self = Py.Float q.
Hypothesis Hsome : tasks <> [].

Local Abbreviation step := (step render update self tasks).
Local Abbreviation exec := (exec render update self tasks).
Local Abbreviation init := (@init T R A a0).
Local Abbreviation starved := (@starved T R A tasks).

Lemma starved_step a s s' : starved s -> step a s = Some s' -> starved s'.
Proof.
  intros (Htr & Hjq & Hrq & Hws & Hp & Hm) H.
  destruct s as [p ws m jq rq ac tr]. simpl in *. subst tr jq rq.
  unfold starved. simpl.
  destruct a as [| |w]; unfold step, main_step, producer_step, worker_step in H;
    simpl in H; rewrite ?Hfraction in H; simpl in H.
  - destruct m as [|[|n]|remaining| | |]; simplify_eq/=; try done.
    + repeat split; try done. apply Forall_app. split; [done|].
      by repeat constructor.
    + destruct (Z.eqb_spec (Z.of_nat (length tasks)) 0) as [Hz|Hz];
        [|done].
      destruct tasks; [done|simpl in Hz; lia].
  - destruct p as [|[|t ts]| |]; simplify_eq/=; done.
  - destruct (ws !! w) as [st|] eqn:Hw; [|done].
    pose proof (proj1 (Forall_lookup _ _) Hws w st Hw) as ->. done.
Qed.


End FractionalJobSize.

(** ** The concrete runs, continued *)

Lemma jobs_taken_in_order_witness :
  produced (trace Demo.final)
  = received (trace Demo.final) ++ queued_jobs (job_queue Demo.final).
Proof.
  assert (exec Demo.render Demo.update Demo.engine Demo.tasks Demo.schedule
            (init []) = Some Demo.final) as Hrun
    by (vm_compute; reflexivity).
  exact (jobs_taken_in_order Demo.render Demo.update Demo.engine Demo.tasks []
           Demo.schedule Demo.final Hrun).
Defined.

Lemma sentinel_ends_one_worker_witness :
  sentinels (trace Demo.returned)
  = (queued_sentinels (job_queue Demo.returned)
     + exited (workers Demo.returned))%nat.
Proof.
  assert (exec Demo.render Demo.update Demo.engine Demo.tasks
            (take 34 Demo.schedule) (init []) = Some Demo.returned) as Hrun
    by (vm_compute; reflexivity).
  exact (proj1 (sentinel_ends_one_worker Demo.render Demo.update Demo.engine
                  Demo.tasks [] (take 34 Demo.schedule) Demo.returned Hrun)).
Defined.

Lemma worker_renders_in_order_witness :
  rendered_by 0 (trace Demo.final)
  ++ wtodo (default WGet (workers Demo.final !! 0%nat))
  = concat (got 0 (trace Demo.final)).
Proof.
  assert (exec Demo.render Demo.update Demo.engine Demo.tasks Demo.schedule
            (init []) = Some Demo.final) as Hrun
    by (vm_compute; reflexivity).
  exact (worker_renders_in_order Demo.render Demo.update Demo.engine
           Demo.tasks [] Demo.schedule Demo.final 0%nat Hrun).
Defined.

Lemma results_updated_in_order_witness :
  updated (trace Demo.final) ++ mbatch (main Demo.final)
  ++ concat (result_queue Demo.final)
  = concat (all_put (trace Demo.final)).
Proof.
  assert (exec Demo.render Demo.update Demo.engine Demo.tasks Demo.schedule
            (init []) = Some Demo.final) as Hrun
    by (vm_compute; reflexivity).
  exact (results_updated_in_order Demo.render Demo.update Demo.engine
           Demo.tasks [] Demo.schedule Demo.final Hrun).
Defined.

Lemma nothing_after_return_witness :
  main Demo.final = MReturned /\ acc Demo.final = acc Demo.returned.
Proof.
  assert (main Demo.returned = MReturned) as Hmain by reflexivity.
  assert (exec Demo.render Demo.update Demo.engine Demo.tasks
            [Worker 0; Worker 1] Demo.returned = Some Demo.final) as Hrun
    by (vm_compute; reflexivity).
  destruct (nothing_after_return Demo.render Demo.update Demo.engine
              Demo.tasks [Worker 0; Worker 1] Demo.returned Demo.final
              Hmain Hrun) as (Hm & Ha & _).
  split; [exact Hm | exact Ha].
Defined.

Lemma run_puts_producer_jobs_witness :
  exists rest,
    [[5; 4]; [3; 2]; [1]] = produced (trace Demo.final) ++ rest
    /\ (main Demo.final = MReturned -> rest = []).
Proof.
  assert (configured Demo.engine 2) as Hcfg
    by (repeat split; reflexivity || lia).
  assert (exec Demo.render Demo.update Demo.engine Demo.tasks Demo.schedule
            (init []) = Some Demo.final) as Hrun
    by (vm_compute; reflexivity).
  assert (_producer 6 Demo.engine Demo.tasks
          = Some (inr [[5; 4]; [3; 2]; [1]])) as Hjobs by reflexivity.
  exact (run_puts_producer_jobs Demo.render Demo.update Demo.engine
           Demo.tasks 2 Hcfg [] Demo.schedule Demo.final 6
           [[5; 4]; [3; 2]; [1]] Hrun Hjobs).
Defined.

Lemma run_comes_to_rest_witness :
  Z.of_nat (length Demo.schedule)
  <= 6 + 4 * _processes Demo.engine + 20 * Z.of_nat (length Demo.tasks).
Proof.
  assert (configured Demo.engine 2) as Hcfg
    by (repeat split; reflexivity || lia).
  assert (exec Demo.render Demo.update Demo.engine Demo.tasks Demo.schedule
            (init []) = Some Demo.final) as Hrun
    by (vm_compute; reflexivity).
  exact (proj1 (run_comes_to_rest Demo.render Demo.update Demo.engine
                  Demo.tasks 2 Hcfg [] Demo.schedule Demo.final Hrun)).
Defined.

Lemma order_free_update_witness :
  acc Demo.final_total
  = fst (SerialEngine_run Demo.render Demo.total Demo.tasks 0).
Proof.
  assert (configured Demo.engine 2) as Hcfg
    by (repeat split; reflexivity || lia).
  assert (forall r1 r2 a : Z,
             Demo.total r1 (Demo.total r2 a) = Demo.total r2 (Demo.total r1 a))
    as Hcomm by (intros r1 r2 a; unfold Demo.total; lia).
  assert (exec Demo.render Demo.total Demo.engine Demo.tasks Demo.schedule
            (init 0) = Some Demo.final_total) as Hrun
    by (vm_compute; reflexivity).
  assert (main Demo.final_total = MReturned) as Hmain by reflexivity.
  exact (order_free_update Demo.render Demo.total Demo.engine Demo.tasks 2
           Hcfg 0 Demo.schedule Demo.final_total Hcomm Hrun Hmain).
Defined.

Lemma single_worker_order_witness :
  updated (trace Demo.final1) = Demo.render <$> reverse Demo.tasks.
Proof.
  assert (configured Demo.engine1 2) as Hcfg
    by (repeat split; reflexivity || lia).
  assert (_processes Demo.engine1 = 1) as Hone by reflexivity.
  assert (exec Demo.render Demo.update Demo.engine1 Demo.tasks Demo.schedule1
            (init []) = Some Demo.final1) as Hrun
    by (vm_compute; reflexivity).
  assert (main Demo.final1 = MReturned) as Hmain by reflexivity.
  exact (proj1 (single_worker_order Demo.render Demo.update Demo.engine1
                  Demo.tasks 2 Hcfg [] Demo.schedule1 Demo.final1 Hone Hrun
                  Hmain)).
Defined.

Lemma worker_count_is_started_witness :
  Z.of_nat (length (workers Demo.final)) <= worker_count Demo.engine.
Proof.
  assert (configured Demo.engine 2) as Hcfg
    by (repeat split; reflexivity || lia).
  assert (exec Demo.render Demo.update Demo.engine Demo.tasks Demo.schedule
            (init []) = Some Demo.final) as Hrun
    by (vm_compute; reflexivity).
  exact (proj1 (worker_count_is_started Demo.render Demo.update Demo.engine
                  Demo.tasks 2 Hcfg [] Demo.schedule Demo.final Hrun)).
Defined.

Lemma no_empty_message_witness :
  Forall (fun m => m <> Some []) (job_queue Demo.returned).
Proof.
  assert (configured Demo.engine 2) as Hcfg
    by (repeat split; reflexivity || lia).
  assert (exec Demo.render Demo.update Demo.engine Demo.tasks
            (take 34 Demo.schedule) (init []) = Some Demo.returned) as Hrun
    by (vm_compute; reflexivity).
  exact (proj1 (no_empty_message Demo.render Demo.update Demo.engine
                  Demo.tasks 2 Hcfg [] (take 34 Demo.schedule) Demo.returned
                  Hrun)).
Defined.


(** ** The validation of the number of tasks per job

    C3: a number of tasks per job has to be a positive integer, or the
    assignment has to fail.  The code misses this twice.  At 3/2 the
    setter and the constructor store the value, where the [processes]
    setter beside them would have taken its integer part, and the stored
    value stops the producer at [range] with a [TypeError].  At 0 the
    constructor returns an engine with 1 task per job, although the
    setter raises for 0. *)
Theorem C3_validation_misses :
  set_tasks_per_job (mkEngine 8 (Py.Int 1)) (Py.Float (3 # 2))
  = inr (mkEngine 8 (Py.Float (3 # 2)))
  /\ __init__ 8 Py.None_ (Py.Float (3 # 2))
     = inr (mkEngine 8 (Py.Float (3 # 2)))
  /\ _producer 4 (mkEngine 8 (Py.Float (3 # 2))) [1; 2; 3]
     = Some (inl Py.TypeError)
  /\ set_processes 8 (mkEngine 8 (Py.Int 1)) (Py.Float (3 # 2))
     = inr (mkEngine 1 (Py.Int 1))
  /\ __init__ 8 Py.None_ (Py.Int 0) = inr (mkEngine 8 (Py.Int 1))
  /\ set_tasks_per_job (mkEngine 8 (Py.Int 1)) (Py.Int 0)
     = inl (Py.ValueError tasks_per_job_msg).
Proof. repeat split; reflexivity. Qed.
